(** * Version histories, the persistent queue and the workflow resetter

    A shallow embedding of the Go sources

    - [common/persistence] version history (items, histories, collections
      of histories),
    - [common/persistence/sql] queue ([sqlQueue]),
    - [service/history] workflow resetter ([workflowResetterImpl]) and its
      older variant ([workflowResetorImpl2]),

    followed by the properties established for them.

    Go pointers to [VersionHistoryItem] and [VersionHistory] are locations
    of a store, so that aliasing, in-place updates and deep copies are
    visible.  Go run-time failures ([panic], indexing out of range, nil
    dereference) are an outcome of their own, distinct from returned
    [error] values. *)

From Stdlib Require Import ZArith Lia.
From Stdlib Require Import Strings.Byte.
From stdpp Require Import base list gmap strings pretty sorting.

Local Open Scope Z_scope.

#[global] Instance byte_eq_dec : EqDecision byte := Byte.byte_eq_dec.

(** ** Package [common]: process-wide constants *)

Module common.

(** The constants of package [common] whose values the sources under
    study only use through comparison. *)
Class Constants := {
  EmptyVersion : Z;
  EmptyEventID : Z;
  TransientEventID : Z;
  (* the two labels of one Go [switch] are distinct constants *)
  EmptyEventID_neq_TransientEventID : EmptyEventID ≠ TransientEventID
}.

(** Modelled from the spec: [common.FirstEventID], the id of the first
    event of a history, is 1 (the source comments on
    [FirstEventID - 1] as "event id = 0"). *)
Definition FirstEventID : Z := 1.

End common.

(** ** Package [shared]: errors and wire records *)

Module shared.

(** Go [error] values that occur in the sources.  [BadRequestError] is
    the InvalidArgument kind, [InternalServiceError] the Internal kind. *)
Inductive error : Type :=
| BadRequestError (Message : string)
| InternalServiceError (Message : string)
| ErrNoRows                       (* database/sql: sql.ErrNoRows *)
| DriverError (text : string)     (* any other error of the database layer *)
| errorString (text : string).    (* fmt.Errorf *)

#[global] Instance error_eq_dec : EqDecision error.
Proof. solve_decision. Defined.

(** [err.Error()] *)
Definition Error (e : error) : string :=
  match e with
  | BadRequestError m => "BadRequestError{Message: " +:+ m +:+ "}"
  | InternalServiceError m => "InternalServiceError{Message: " +:+ m +:+ "}"
  | ErrNoRows => "sql: no rows in result set"
  | DriverError t => t
  | errorString t => t
  end.

Definition isBadRequest (e : error) : bool :=
  match e with BadRequestError _ => true | _ => false end.

Definition isInternal (e : error) : bool :=
  match e with InternalServiceError _ => true | _ => false end.

(** Wire (thrift) records.  Their fields are optional pointers; the
    generated getters return the zero value for an absent field. *)
Record VersionHistoryItem := {
  EventID : option Z;
  Version : option Z
}.

Definition GetEventID (i : VersionHistoryItem) : Z := default 0 (EventID i).
Definition GetVersion (i : VersionHistoryItem) : Z := default 0 (Version i).

Record VersionHistory := {
  BranchToken : list byte;
  Items : list (option VersionHistoryItem)   (* []*VersionHistoryItem *)
}.

Record VersionHistories := {
  CurrentVersionHistoryIndex : option Z;     (* *int32 *)
  Histories : list (option VersionHistory)   (* []*VersionHistory *)
}.

Definition GetCurrentVersionHistoryIndex (h : VersionHistories) : Z :=
  default 0 (CurrentVersionHistoryIndex h).

End shared.

(** ** Package [persistence]: version histories *)

Module persistence.
Import common shared.

(** A location in the store (a non-nil Go pointer). *)
Abbreviation loc := nat.

Record VersionHistoryItem := mkItem {
  eventID : Z;
  version : Z
}.

Record VersionHistory := mkHistory {
  branchToken : list byte;
  items : list loc            (* []*VersionHistoryItem *)
}.

Record VersionHistories := mkHistories {
  currentVersionHistoryIndex : Z;
  histories : list loc        (* []*VersionHistory *)
}.

#[global] Instance VersionHistoryItem_eq_dec : EqDecision VersionHistoryItem.
Proof. solve_decision. Defined.

(** The store: one heap per kind of object.  A fresh object is placed
    at the end, so its location is the former length of the heap. *)
Record Store := mkStore {
  itemHeap : list VersionHistoryItem;
  historyHeap : list VersionHistory
}.

Inductive outcome (A : Type) : Type :=
| Returns (a : A) (σ : Store)
| Panics (msg : string)
| OutOfFuel.
Arguments Returns {A} a σ.
Arguments Panics {A} msg.
Arguments OutOfFuel {A}.

Definition M (A : Type) : Type := Store → outcome A.

Definition ret {A} (a : A) : M A := λ σ, Returns a σ.

Definition bind {A B} (m : M A) (k : A → M B) : M B :=
  λ σ, match m σ with
       | Returns a σ' => k a σ'
       | Panics msg => Panics msg
       | OutOfFuel => OutOfFuel
       end.

Definition panic {A} (msg : string) : M A := λ _, Panics msg.

Declare Scope go_scope.
Delimit Scope go_scope with go.
Notation "'let*' x ':=' m 'in' k" := (bind m (λ x, k))
  (at level 10, x pattern, m at level 100, k at level 200) : go_scope.
Local Open Scope go_scope.

(** *** Store primitives *)

Definition nilDeref : string :=
  "runtime error: invalid memory address or nil pointer dereference".
Definition indexOutOfRange : string := "runtime error: index out of range".

Definition loadItem (p : loc) : M VersionHistoryItem :=
  λ σ, match itemHeap σ !! p with
       | Some x => Returns x σ
       | None => Panics nilDeref
       end.

Definition storeItem (p : loc) (x : VersionHistoryItem) : M unit :=
  λ σ, match itemHeap σ !! p with
       | Some _ => Returns tt (mkStore (<[p:=x]> (itemHeap σ)) (historyHeap σ))
       | None => Panics nilDeref
       end.

Definition newItem (x : VersionHistoryItem) : M loc :=
  λ σ, Returns (length (itemHeap σ))
               (mkStore (itemHeap σ ++ [x]) (historyHeap σ)).

Definition loadHistory (p : loc) : M VersionHistory :=
  λ σ, match historyHeap σ !! p with
       | Some x => Returns x σ
       | None => Panics nilDeref
       end.

Definition storeHistory (p : loc) (x : VersionHistory) : M unit :=
  λ σ, match historyHeap σ !! p with
       | Some _ => Returns tt (mkStore (itemHeap σ) (<[p:=x]> (historyHeap σ)))
       | None => Panics nilDeref
       end.

Definition newHistory (x : VersionHistory) : M loc :=
  λ σ, Returns (length (historyHeap σ))
               (mkStore (itemHeap σ) (historyHeap σ ++ [x])).

(** [len(s)] and [s[i]] on a slice *)
Definition len {A} (s : list A) : Z := Z.of_nat (length s).

Definition index {A} (s : list A) (i : Z) : M A :=
  if decide (0 ≤ i) then
    match s !! Z.to_nat i with
    | Some x => ret x
    | None => panic indexOutOfRange
    end
  else panic indexOutOfRange.

(** A Go [(value, error)] pair of which exactly one side is non-nil. *)
Inductive result (A : Type) : Type :=
| Ok (a : A)
| Err (e : error).
Arguments Ok {A} a.
Arguments Err {A} e.

Section with_constants.
Context {consts : Constants}.

(** *** [VersionHistoryItem] *)

Definition NewVersionHistoryItem (inputEventID inputVersion : Z) : M loc :=
  if bool_decide (inputEventID < 0)
     || (bool_decide (inputVersion < 0) && bool_decide (inputVersion ≠ EmptyVersion))
  then panic ("invalid version history item event ID: " +:+ pretty inputEventID
                +:+ ", version: " +:+ pretty inputVersion)
  else newItem (mkItem inputEventID inputVersion).

Definition NewVersionHistoryItemFromThrift
    (input : option shared.VersionHistoryItem) : M loc :=
  match input with
  | None => panic "version history item is null"
  | Some input => NewVersionHistoryItem (GetEventID input) (GetVersion input)
  end.

Definition Item_Duplicate (item : loc) : M loc :=
  let* i := loadItem item in
  NewVersionHistoryItem (eventID i) (version i).

Definition Item_ToThrift (item : loc) : M shared.VersionHistoryItem :=
  let* i := loadItem item in
  ret {| EventID := Some (eventID i); Version := Some (version i) |}.

Definition Item_GetEventID (item : loc) : M Z :=
  let* i := loadItem item in ret (eventID i).

Definition Item_GetVersion (item : loc) : M Z :=
  let* i := loadItem item in ret (version i).

Definition Item_Equals (item input : loc) : M bool :=
  let* i := loadItem item in
  let* j := loadItem input in
  ret (bool_decide (version i = version j) && bool_decide (eventID i = eventID j)).

(** *** [VersionHistory] *)

Definition AddOrUpdateItem (v : loc) (item : loc) : M (option error) :=
  let* vh := loadHistory v in
  if bool_decide (len (items vh) = 0) then
    let* d := Item_Duplicate item in
    let* vh := loadHistory v in
    let* _ := storeHistory v (mkHistory (branchToken vh) [d]) in
    ret None
  else
    let* lastItem := index (items vh) (len (items vh) - 1) in
    let* i := loadItem item in
    let* l := loadItem lastItem in
    if bool_decide (version i < version l) then
      ret (Some (BadRequestError
        ("cannot update version history with a lower version " +:+ pretty (version i)
           +:+ ". Last version: " +:+ pretty (version l))))
    else if bool_decide (eventID i ≤ eventID l) then
      ret (Some (BadRequestError
        ("cannot add version history with a lower event id " +:+ pretty (eventID i)
           +:+ ". Last event id: " +:+ pretty (eventID l))))
    else if bool_decide (version i > version l) then
      (* Add a new history *)
      let* d := Item_Duplicate item in
      let* vh := loadHistory v in
      let* _ := storeHistory v (mkHistory (branchToken vh) (items vh ++ [d])) in
      ret None
    else
      (* item.version == lastItem.version && item.eventID > lastItem.eventID *)
      let* i := loadItem item in
      let* l := loadItem lastItem in
      let* _ := storeItem lastItem (mkItem (eventID i) (version l)) in
      ret None.

Fixpoint NewVersionHistory_loop (versionHistory : loc) (inputItems : list loc)
    : M unit :=
  match inputItems with
  | [] => ret tt
  | item :: rest =>
      let* d := Item_Duplicate item in
      let* err := AddOrUpdateItem versionHistory d in
      match err with
      | Some e => panic ("unable to initialize version history: " +:+ Error e)
      | None => NewVersionHistory_loop versionHistory rest
      end
  end.

Definition NewVersionHistory (inputToken : list byte) (inputItems : list loc)
    : M loc :=
  let token := inputToken in   (* make + copy: a fresh array, same bytes *)
  let* versionHistory := newHistory (mkHistory token []) in
  let* _ := NewVersionHistory_loop versionHistory inputItems in
  ret versionHistory.

Fixpoint NewVersionHistoryFromThrift_loop
    (input : list (option shared.VersionHistoryItem)) (items : list loc)
    : M (list loc) :=
  match input with
  | [] => ret items
  | item :: rest =>
      let* i := NewVersionHistoryItemFromThrift item in
      NewVersionHistoryFromThrift_loop rest (items ++ [i])
  end.

Definition NewVersionHistoryFromThrift (input : option shared.VersionHistory)
    : M loc :=
  match input with
  | None => panic "version history is null"
  | Some input =>
      let* items := NewVersionHistoryFromThrift_loop (Items input) [] in
      NewVersionHistory (BranchToken input) items
  end.

Definition History_Duplicate (v : loc) : M loc :=
  let* vh := loadHistory v in
  NewVersionHistory (branchToken vh) (items vh).

Fixpoint History_ToThrift_loop (its : list loc)
    (items : list (option shared.VersionHistoryItem))
    : M (list (option shared.VersionHistoryItem)) :=
  match its with
  | [] => ret items
  | item :: rest =>
      let* t := Item_ToThrift item in
      History_ToThrift_loop rest (items ++ [Some t])
  end.

Definition History_ToThrift (v : loc) : M shared.VersionHistory :=
  let* vh := loadHistory v in
  let token := branchToken vh in
  let* items := History_ToThrift_loop (items vh) [] in
  ret {| BranchToken := token; Items := items |}.

Definition notFoundErr : error :=
  BadRequestError "version history does not contains the LCA item.".

Fixpoint DuplicateUntilLCAItem_loop (versionHistory : loc) (lcaItem : loc)
    (its : list loc) : M (result loc) :=
  match its with
  | [] => ret (Err notFoundErr)
  | item :: rest =>
      let* i := loadItem item in
      let* lca := loadItem lcaItem in
      if bool_decide (version i < version lca) then
        let* err := AddOrUpdateItem versionHistory item in
        match err with
        | Some e => ret (Err e)
        | None => DuplicateUntilLCAItem_loop versionHistory lcaItem rest
        end
      else if bool_decide (version i = version lca) then
        if bool_decide (eventID lca > eventID i) then ret (Err notFoundErr)
        else
          let* err := AddOrUpdateItem versionHistory lcaItem in
          match err with
          | Some e => ret (Err e)
          | None => ret (Ok versionHistory)
          end
      else ret (Err notFoundErr)
  end.

Definition DuplicateUntilLCAItem (v : loc) (lcaItem : loc) : M (result loc) :=
  let* versionHistory := NewVersionHistory [] [] in
  let* vh := loadHistory v in
  DuplicateUntilLCAItem_loop versionHistory lcaItem (items vh).

Definition SetBranchToken (v : loc) (inputToken : list byte) : M (option error) :=
  let token := inputToken in
  let* vh := loadHistory v in
  let* _ := storeHistory v (mkHistory token (items vh)) in
  ret None.

Definition GetBranchToken (v : loc) : M (list byte) :=
  let* vh := loadHistory v in
  ret (branchToken vh).

Fixpoint ContainsItem_loop (item : loc) (its : list loc) (prevEventID : Z)
    : M bool :=
  match its with
  | [] => ret false
  | currentItem :: rest =>
      let* iv := Item_GetVersion item in
      let* cv := Item_GetVersion currentItem in
      let* ie := Item_GetEventID item in
      let* ce := Item_GetEventID currentItem in
      if bool_decide (iv = cv) then
        (* this is a special handling for event id = 0 *)
        if bool_decide (ie = FirstEventID - 1) && bool_decide (ie ≤ ce) then ret true
        else if bool_decide (prevEventID < ie) && bool_decide (ie ≤ ce) then ret true
        else ContainsItem_loop item rest ce
      else if bool_decide (iv < cv) then ret false
      else ContainsItem_loop item rest ce
  end.

Definition ContainsItem (v : loc) (item : loc) : M bool :=
  let prevEventID := FirstEventID - 1 in
  let* vh := loadHistory v in
  ContainsItem_loop item (items vh) prevEventID.

Definition noJointPoint : error :=
  BadRequestError "version history is malformed. No joint point found.".

(** The loop of [FindLCAItem]; every iteration decrements one of the
    two indices, which [fuel] bounds. *)
Fixpoint FindLCAItem_loop (fuel : nat) (v remote : loc)
    (localIndex remoteIndex : Z) : M (result loc) :=
  if bool_decide (localIndex >= 0) && bool_decide (remoteIndex >= 0) then
    match fuel with
    | O => λ _, OutOfFuel
    | S fuel =>
        let* vh := loadHistory v in
        let* localVersionItem := index (items vh) localIndex in
        let* rh := loadHistory remote in
        let* remoteVersionItem := index (items rh) remoteIndex in
        let* l := loadItem localVersionItem in
        let* r := loadItem remoteVersionItem in
        if bool_decide (version l = version r) then
          if bool_decide (eventID l > eventID r) then
            let* d := Item_Duplicate remoteVersionItem in ret (Ok d)
          else
            let* d := Item_Duplicate localVersionItem in ret (Ok d)
        else if bool_decide (version l > version r) then
          FindLCAItem_loop fuel v remote (localIndex - 1) remoteIndex
        else
          (* localVersionItem.version < remoteVersionItem.version *)
          FindLCAItem_loop fuel v remote localIndex (remoteIndex - 1)
    end
  else ret (Err noJointPoint).

Definition FindLCAItem (v remote : loc) : M (result loc) :=
  let* vh := loadHistory v in
  let localIndex := len (items vh) - 1 in
  let* rh := loadHistory remote in
  let remoteIndex := len (items rh) - 1 in
  FindLCAItem_loop (length (items vh) + length (items rh))%nat v remote
                   localIndex remoteIndex.

Definition IsLCAAppendable (v : loc) (item : option loc) : M bool :=
  let* vh := loadHistory v in
  if bool_decide (len (items vh) = 0) then panic "version history not initialized"
  else
    match item with
    | None => panic "version history item is null"
    | Some item =>
        let* last := index (items vh) (len (items vh) - 1) in
        let* l := loadItem last in
        let* i := loadItem item in
        ret (bool_decide (l = i))
    end.

Definition emptyErr : error := BadRequestError "version history is empty.".

Definition GetFirstItem (v : loc) : M (result loc) :=
  let* vh := loadHistory v in
  if bool_decide (len (items vh) = 0) then ret (Err emptyErr)
  else
    let* first := index (items vh) 0 in
    let* d := Item_Duplicate first in
    ret (Ok d).

Definition GetLastItem (v : loc) : M (result loc) :=
  let* vh := loadHistory v in
  if bool_decide (len (items vh) = 0) then ret (Err emptyErr)
  else
    let* last := index (items vh) (len (items vh) - 1) in
    let* d := Item_Duplicate last in
    ret (Ok d).

Definition IsEmpty (v : loc) : M bool :=
  let* vh := loadHistory v in
  ret (bool_decide (len (items vh) = 0)).

Definition bytes_Equal (a b : list byte) : bool := bool_decide (a = b).

Fixpoint History_Equals_loop (idx : Z) (its : list loc) (inputItems : list loc) : M bool :=
  match its with
  | [] => ret true
  | localItem :: rest =>
      let* incomingItem := index inputItems idx in
      let* eq := Item_Equals localItem incomingItem in
      if negb eq then ret false
      else History_Equals_loop (idx + 1) rest inputItems
  end.

Definition History_Equals (v input : loc) : M bool :=
  let* vh := loadHistory v in
  let* ih := loadHistory input in
  if negb (bytes_Equal (branchToken vh) (branchToken ih)) then ret false
  else if bool_decide (len (items vh) ≠ len (items ih)) then ret false
  else History_Equals_loop 0 (items vh) (items ih).

(** *** [VersionHistories]

    A [*VersionHistories] is never aliased in these sources; the
    receiver is passed in and the updated receiver is handed back. *)

Definition NewVersionHistories (versionHistory : option loc) : M VersionHistories :=
  match versionHistory with
  | None => panic "version history cannot be null"
  | Some versionHistory => ret (mkHistories 0 [versionHistory])
  end.

Definition invalidBranchIndex : error := BadRequestError "invalid branch index.".

Definition GetVersionHistory (h : VersionHistories) (branchIndex : Z)
    : M (result loc) :=
  if bool_decide (branchIndex < 0) || bool_decide (branchIndex > len (histories h))
  then ret (Err invalidBranchIndex)
  else
    let* v := index (histories h) branchIndex in
    ret (Ok v).

Definition AddVersionHistory (h : VersionHistories) (v : option loc)
    : M (VersionHistories * (bool * Z * option error)) :=
  match v with
  | None => ret (h, (false, 0, Some (BadRequestError "version histories is null.")))
  | Some v =>
      (* assuming existing version histories inside are valid *)
      let* r := GetFirstItem v in
      match r with
      | Err err => ret (h, (false, 0, Some err))
      | Ok incomingFirstItem =>
      let* r := GetVersionHistory h (currentVersionHistoryIndex h) in
      match r with
      | Err err => ret (h, (false, 0, Some err))
      | Ok currentVersionHistory =>
      let* r := GetFirstItem currentVersionHistory in
      match r with
      | Err err => ret (h, (false, 0, Some err))
      | Ok currentFirstItem =>
      let* ifi := loadItem incomingFirstItem in
      let* cfi := loadItem currentFirstItem in
      if bool_decide (version ifi ≠ version cfi) then
        ret (h, (false, 0,
                 Some (BadRequestError "version history first item does not match.")))
      else
        (* TODO maybe we need more strict validation *)
        let* newVersionHistory := History_Duplicate v in
        let h := mkHistories (currentVersionHistoryIndex h)
                             (histories h ++ [newVersionHistory]) in
        let newVersionHistoryIndex := len (histories h) - 1 in
        (* check if need to switch current branch *)
        let* r := GetLastItem newVersionHistory in
        match r with
        | Err err => ret (h, (false, 0, Some err))
        | Ok newLastItem =>
        let* r := GetLastItem currentVersionHistory in
        match r with
        | Err err => ret (h, (false, 0, Some err))
        | Ok currentLastItem =>
        let* nl := loadItem newLastItem in
        let* cl := loadItem currentLastItem in
        if bool_decide (version nl > version cl) then
          ret (mkHistories newVersionHistoryIndex (histories h),
               (true, newVersionHistoryIndex, None))
        else
          ret (h, (false, newVersionHistoryIndex, None))
        end end
      end end end
  end.

Fixpoint NewVersionHistoriesFromThrift_loop (versionHistories : VersionHistories)
    (rest : list (option shared.VersionHistory)) : M VersionHistories :=
  match rest with
  | [] => ret versionHistories
  | t :: rest =>
      let* v := NewVersionHistoryFromThrift t in
      let* r := AddVersionHistory versionHistories (Some v) in
      match r with
      | (_, (_, _, Some err)) =>
          panic ("unable to initialize version histories: " +:+ Error err)
      | (versionHistories, (_, _, None)) =>
          NewVersionHistoriesFromThrift_loop versionHistories rest
      end
  end.

Definition NewVersionHistoriesFromThrift (input : option shared.VersionHistories)
    : M VersionHistories :=
  match input with
  | None => panic "version histories is null"
  | Some input =>
      if bool_decide (len (Histories input) = 0)
      then panic "version histories cannot have empty"
      else
        let currentVersionHistoryIndex' := GetCurrentVersionHistoryIndex input in
        let* first := index (Histories input) 0 in
        let* v := NewVersionHistoryFromThrift first in
        let* versionHistories := NewVersionHistories (Some v) in
        (* for i := 1; i < len(input.Histories); i++ *)
        let* versionHistories :=
          NewVersionHistoriesFromThrift_loop versionHistories
                                             (drop 1 (Histories input)) in
        if bool_decide (currentVersionHistoryIndex'
                          ≠ currentVersionHistoryIndex versionHistories)
        then panic "unable to initialize version histories: current index mismatch"
        else ret versionHistories
  end.

Fixpoint Histories_Duplicate_loop (hs : list loc) (histories : list loc)
    : M (list loc) :=
  match hs with
  | [] => ret histories
  | history :: rest =>
      let* d := History_Duplicate history in
      Histories_Duplicate_loop rest (histories ++ [d])
  end.

Definition Histories_Duplicate (h : VersionHistories) : M VersionHistories :=
  let currentVersionHistoryIndex' := currentVersionHistoryIndex h in
  let* histories := Histories_Duplicate_loop (histories h) [] in
  ret (mkHistories currentVersionHistoryIndex' histories).

(** Go's conversion [int32(x)]: the low 32 bits, read as signed. *)
Definition int32 (x : Z) : Z := (x + 2 ^ 31) mod 2 ^ 32 - 2 ^ 31.

Fixpoint Histories_ToThrift_loop (hs : list loc)
    (histories : list (option shared.VersionHistory))
    : M (list (option shared.VersionHistory)) :=
  match hs with
  | [] => ret histories
  | history :: rest =>
      let* t := History_ToThrift history in
      Histories_ToThrift_loop rest (histories ++ [Some t])
  end.

Definition Histories_ToThrift (h : VersionHistories) : M shared.VersionHistories :=
  let currentVersionHistoryIndex' := currentVersionHistoryIndex h in
  let* histories := Histories_ToThrift_loop (histories h) [] in
  ret {| CurrentVersionHistoryIndex := Some (int32 currentVersionHistoryIndex');
         Histories := histories |}.

Fixpoint FindLCAVersionHistoryIndexAndItem_loop (incomingHistory : loc)
    (index' : Z) (hs : list loc)
    (versionHistoryIndex versionHistoryLength : Z) (versionHistoryItem : option loc)
    : M (Z * option loc * option error) :=
  match hs with
  | [] => ret (versionHistoryIndex, versionHistoryItem, None)
  | localHistory :: rest =>
      let* r := FindLCAItem localHistory incomingHistory in
      match r with
      | Err err => ret (0, None, Some err)
      | Ok item =>
          let* i := loadItem item in
          let* lh := loadHistory localHistory in
          let* better :=
            match versionHistoryItem with
            | None => ret true                     (* if not set *)
            | Some best =>
                let* b := loadItem best in
                ret (bool_decide (eventID i > eventID b)
                     || (bool_decide (eventID i = eventID b)
                         && bool_decide (len (items lh) < versionHistoryLength)))
            end in
          if better then
            FindLCAVersionHistoryIndexAndItem_loop incomingHistory (index' + 1) rest
              index' (len (items lh)) (Some item)
          else
            FindLCAVersionHistoryIndexAndItem_loop incomingHistory (index' + 1) rest
              versionHistoryIndex versionHistoryLength versionHistoryItem
      end
  end.

Definition FindLCAVersionHistoryIndexAndItem (h : VersionHistories)
    (incomingHistory : loc) : M (Z * option loc * option error) :=
  FindLCAVersionHistoryIndexAndItem_loop incomingHistory 0 (histories h) 0 0 None.

Fixpoint FindFirstVersionHistoryIndexByItem_loop (item : loc) (index' : Z)
    (hs : list loc) : M (Z * option error) :=
  match hs with
  | [] => ret (0, Some (BadRequestError
                          "version histories does not contains given item."))
  | localHistory :: rest =>
      let* c := ContainsItem localHistory item in
      if c then ret (index', None)
      else FindFirstVersionHistoryIndexByItem_loop item (index' + 1) rest
  end.

Definition FindFirstVersionHistoryIndexByItem (h : VersionHistories) (item : loc)
    : M (Z * option error) :=
  FindFirstVersionHistoryIndexByItem_loop item 0 (histories h).

Definition SetCurrentVersionHistoryIndex (h : VersionHistories) (index' : Z)
    : M (VersionHistories * option error) :=
  if bool_decide (index' < 0) || bool_decide (index' >= len (histories h))
  then ret (h, Some (BadRequestError "invalid current branch index."))
  else ret (mkHistories index' (histories h), None).

Definition GetCurrentVersionHistoryIndex (h : VersionHistories) : Z :=
  currentVersionHistoryIndex h.

Definition GetCurrentVersionHistory (h : VersionHistories) : M (result loc) :=
  GetVersionHistory h (GetCurrentVersionHistoryIndex h).

Fixpoint IsRebuilt_loop (currentLastItem : loc) (hs : list loc)
    : M (bool * option error) :=
  match hs with
  | [] => ret (false, None)
  | versionHistory :: rest =>
      let* r := GetLastItem versionHistory in
      match r with
      | Err err => ret (false, Some err)
      | Ok lastItem =>
          let* lv := Item_GetVersion lastItem in
          let* cv := Item_GetVersion currentLastItem in
          if bool_decide (lv > cv) then ret (true, None)
          else IsRebuilt_loop currentLastItem rest
      end
  end.

Definition IsRebuilt (h : VersionHistories) : M (bool * option error) :=
  let* r := GetCurrentVersionHistory h in
  match r with
  | Err err => ret (false, Some err)
  | Ok currentVersionHistory =>
      let* r := GetLastItem currentVersionHistory in
      match r with
      | Err err => ret (false, Some err)
      | Ok currentLastItem => IsRebuilt_loop currentLastItem (histories h)
      end
  end.

End with_constants.

End persistence.

(** ** Package [sqldb]: the storage the queue runs on *)

Module sqldb.
Import shared.

Record QueueRow := mkQueueRow {
  QueueType : Z;
  MessageID : Z;
  MessagePayload : list byte
}.

(** Modelled from the spec: the tables [queue(queueType, messageID,
    messagePayload)], primary key [(queueType, messageID)], and
    [queueAckLevels], one row per queue type holding the map from
    cluster name to message id.  The interface [sqldb.Interface] /
    [sqldb.Tx] and its implementation are not among the sources. *)
Record Tables := mkTables {
  queue : list QueueRow;
  queueAckLevels : gmap Z (gmap string Z)
}.

(** A database is its tables together with the failures the storage
    layer is going to suffer: every storage operation consumes one
    entry, and [Some e] makes that operation fail with [e] without
    effect. *)
Record DB := mkDB {
  tables : Tables;
  faults : list (option error)
}.

Definition Q (A : Type) : Type := DB → A * DB.

Definition qret {A} (a : A) : Q A := λ db, (a, db).
Definition qbind {A B} (m : Q A) (k : A → Q B) : Q B :=
  λ db, let '(a, db') := m db in k a db'.

Definition attempt {A} (op : Tables → (A + error) * Tables) : Q (A + error) :=
  λ db, match faults db with
        | Some e :: rest => (inr e, mkDB (tables db) rest)
        | None :: rest =>
            let '(r, t) := op (tables db) in (r, mkDB t rest)
        | [] =>
            let '(r, t) := op (tables db) in (r, mkDB t [])
        end.

Definition rowsOf (queueType : Z) (t : Tables) : list QueueRow :=
  filter (λ r, QueueType r = queueType) (queue t).

(** Modelled from the spec: "read the maximum existing messageID for
    this queueType FOR UPDATE"; [sql.ErrNoRows] when there is none. *)
Definition GetLastEnqueuedMessageIDForUpdate (queueType : Z) : Q (Z + error) :=
  attempt (λ t, match rowsOf queueType t with
                | [] => (inr ErrNoRows, t)
                | r :: rest =>
                    (inl (foldr (λ x acc, Z.max (MessageID x) acc) (MessageID r) rest), t)
                end).

(** Modelled from the spec: insertion into [queue]; the primary key
    rejects a second row with the same [(queueType, messageID)]. *)
Definition InsertIntoQueue (row : QueueRow) : Q (unit + error) :=
  attempt (λ t,
    if bool_decide (Exists (λ r, QueueType r = QueueType row ∧ MessageID r = MessageID row)
                           (queue t))
    then (inr (DriverError "duplicate entry for primary key"), t)
    else (inl tt, mkTables (queue t ++ [row]) (queueAckLevels t))).

Fixpoint insertSorted (r : QueueRow) (l : list QueueRow) : list QueueRow :=
  match l with
  | [] => [r]
  | x :: l' => if bool_decide (MessageID r ≤ MessageID x) then r :: x :: l'
               else x :: insertSorted r l'
  end.

(** Modelled from the spec: "up to maxCount messages with
    messageID > lastMessageID, ordered by messageID ascending". *)
Definition GetMessagesFromQueue (queueType lastMessageID maxCount : Z)
    : Q (list QueueRow + error) :=
  attempt (λ t,
    (inl (take (Z.to_nat maxCount)
               (foldr insertSorted []
                      (filter (λ r, lastMessageID < MessageID r) (rowsOf queueType t)))),
     t)).

(** Modelled from the spec: "deletes all messages with
    messageID < messageID". *)
Definition DeleteMessagesBefore (queueType messageID : Z) : Q (unit + error) :=
  attempt (λ t,
    (inl tt,
     mkTables (filter (λ r, ¬ (QueueType r = queueType ∧ MessageID r < messageID))
                      (queue t))
              (queueAckLevels t))).

(** Modelled from the spec: "read the ack-level map"; a nil map when
    the queue type has no row. *)
Definition GetAckLevels (queueType : Z) (forUpdate : bool)
    : Q (option (gmap string Z) + error) :=
  attempt (λ t, (inl (queueAckLevels t !! queueType), t)).

(** Modelled from the spec: "insert a fresh map {clusterName:
    messageID}". *)
Definition InsertAckLevel (queueType messageID : Z) (clusterName : string)
    : Q (unit + error) :=
  attempt (λ t,
    match queueAckLevels t !! queueType with
    | Some _ => (inr (DriverError "duplicate entry for primary key"), t)
    | None =>
        (inl tt, mkTables (queue t)
                          (<[queueType := {[clusterName := messageID]}]> (queueAckLevels t)))
    end).

(** Modelled from the spec: "write back" the ack-level map. *)
Definition UpdateAckLevels (queueType : Z) (clusterAckLevels : gmap string Z)
    : Q (unit + error) :=
  attempt (λ t,
    (inl tt, mkTables (queue t) (<[queueType := clusterAckLevels]> (queueAckLevels t)))).

(** Modelled from the spec: [sqlStore.txExecute] runs its argument in
    one serializable transaction, which "either commits or is rolled
    back": starting, running and committing can each fail, and on any
    failure the tables are those from before. *)
Definition txExecute (operation : string) (f : Q (option error)) : Q (option error) :=
  λ db,
    let '(b, db1) := attempt (λ t, (inl tt, t)) db in          (* BeginTx *)
    match b with
    | inr e => (Some e, db1)
    | inl _ =>
        let '(err, db2) := f db1 in
        match err with
        | Some e => (Some e, mkDB (tables db) (faults db2))     (* Rollback *)
        | None =>
            let '(c, db3) := attempt (λ t, (inl tt, t)) db2 in  (* Commit *)
            match c with
            | inr e => (Some e, mkDB (tables db) (faults db3))
            | inl _ => (None, db3)
            end
        end
    end.

End sqldb.

(** ** Package [sql]: the queue *)

Module sql.
Import shared sqldb.

Declare Scope queue_scope.
Notation "'let*' x ':=' m 'in' k" := (qbind m (λ x, k))
  (at level 10, x pattern, m at level 100, k at level 200) : queue_scope.
Local Open Scope queue_scope.

Record QueueMessage := mkQueueMessage {
  ID : Z;
  Payload : list byte
}.

Record sqlQueue := mkQueue {
  queueType : Z
}.

(** Go's [int] is 64 bits wide on the platforms the service runs on. *)
Definition int_wrap (x : Z) : Z := (x + 2 ^ 63) mod 2 ^ 64 - 2 ^ 63.

Definition newQueueRow (queueType messageID : Z) (payload : list byte) : QueueRow :=
  mkQueueRow queueType messageID payload.

Definition EnqueueMessage (q : sqlQueue) (messagePayload : list byte) : Q (option error) :=
  let* err := txExecute "EnqueueMessage" (
    let* r := GetLastEnqueuedMessageIDForUpdate (queueType q) in
    match
      match r with
      | inl lastMessageID => inl lastMessageID
      | inr err =>
          if bool_decide (err = ErrNoRows) then inl (-1)
          else inr (errorString ("failed to get last enqueued message id: " +:+ Error err))
      end
    with
    | inr e => qret (Some e)
    | inl lastMessageID =>
        let* r := InsertIntoQueue
                    (newQueueRow (queueType q) (int_wrap (lastMessageID + 1)) messagePayload) in
        match r with
        | inl _ => qret None
        | inr err => qret (Some err)
        end
    end) in
  match err with
  | Some err => qret (Some (InternalServiceError (Error err)))
  | None => qret None
  end.

Definition ReadMessages (q : sqlQueue) (lastMessageID maxCount : Z)
    : Q (list QueueMessage + error) :=
  let* r := GetMessagesFromQueue (queueType q) lastMessageID maxCount in
  match r with
  | inr err => qret (inr err)
  | inl rows =>
      qret (inl (map (λ row, mkQueueMessage (MessageID row) (MessagePayload row)) rows))
  end.

Definition DeleteMessagesBefore (q : sqlQueue) (messageID : Z) : Q (option error) :=
  let* r := sqldb.DeleteMessagesBefore (queueType q) messageID in
  match r with
  | inr err =>
      qret (Some (InternalServiceError
                    ("DeleteMessagesBefore operation failed. Error " +:+ Error err)))
  | inl _ => qret None
  end.

Definition UpdateAckLevel (q : sqlQueue) (messageID : Z) (clusterName : string)
    : Q (option error) :=
  let* err := txExecute "UpdateAckLevel" (
    let* r := sqldb.GetAckLevels (queueType q) true in
    match r with
    | inr err =>
        qret (Some (InternalServiceError
                      ("UpdateAckLevel operation failed. Error " +:+ Error err)))
    | inl None =>
        let* r := InsertAckLevel (queueType q) messageID clusterName in
        match r with
        | inr err =>
            qret (Some (InternalServiceError
                          ("UpdateAckLevel operation failed. Error " +:+ Error err)))
        | inl _ => qret None
        end
    | inl (Some clusterAckLevels) =>
        (* Ignore possibly delayed message *)
        if bool_decide (default 0 (clusterAckLevels !! clusterName) > messageID)
        then qret None
        else
          let clusterAckLevels := <[clusterName := messageID]> clusterAckLevels in
          let* r := UpdateAckLevels (queueType q) clusterAckLevels in
          match r with
          | inr err =>
              qret (Some (InternalServiceError
                            ("UpdateAckLevel operation failed. Error " +:+ Error err)))
          | inl _ => qret None
          end
    end) in
  match err with
  | Some err => qret (Some (InternalServiceError (Error err)))
  | None => qret None
  end.

Definition GetAckLevels (q : sqlQueue) : Q (option (gmap string Z) + error) :=
  sqldb.GetAckLevels (queueType q) false.

End sql.

(** ** Package [history]: the workflow resetter *)

Module history.
Import common shared.

(** Go's [int64] addition. *)
Definition int64_add (x y : Z) : Z := (x + y + 2 ^ 63) mod 2 ^ 64 - 2 ^ 63.

Module DecisionInfo.
Record t := mk { ScheduleID : Z; StartedID : Z }.
End DecisionInfo.

Module ActivityInfo.
Record t := mk {
  ScheduleID : Z;
  StartedID : Z;
  Details : list byte;
  StartedIdentity : string
}.
End ActivityInfo.

Module RespondActivityTaskFailedRequest.
Record t := mk {
  Reason : option string;
  Details : list byte;
  Identity : option string
}.
End RespondActivityTaskFailedRequest.

Inductive DecisionTaskFailedCause :=
| DecisionTaskFailedCauseResetWorkflow
| DecisionTaskFailedCauseForceCloseDecision.

Inductive EventType :=
| EventTypeWorkflowExecutionSignaled
| EventTypeWorkflowExecutionContinuedAsNew
| EventTypeOther (code : Z).

Module WorkflowExecutionSignaledEventAttributes.
Record t := mk { SignalName : string; Input : list byte; Identity : string }.
End WorkflowExecutionSignaledEventAttributes.

Module HistoryEvent.
Record t := mk {
  EventType' : EventType;
  WorkflowExecutionSignaledEventAttributes :
    option WorkflowExecutionSignaledEventAttributes.t;
  (* of WorkflowExecutionContinuedAsNewEventAttributes, the field read *)
  NewExecutionRunId : option string
}.
End HistoryEvent.

Module ForkHistoryBranchRequest.
Record t := mk {
  ForkBranchToken : list byte;
  ForkNodeID : Z;
  Info : string;
  ShardID : Z
}.
End ForkHistoryBranchRequest.

Module CompleteForkBranchRequest.
Record t := mk { BranchToken : list byte; Success : bool; ShardID : Z }.
End CompleteForkBranchRequest.

Module WorkflowIdentifier.
Record t := mk { DomainID : string; WorkflowID : string; RunID : string }.
End WorkflowIdentifier.

(** The methods of the [mutableState] interface (and the package
    helper [scheduleDecision]) by which the resetter changes a mutable
    state. *)
Inductive call :=
| UpdateCurrentVersion (version : Z) (forceUpdate : bool)
| AddDecisionTaskFailedEvent (scheduleEventID startedEventID : Z)
    (cause : DecisionTaskFailedCause) (details : list byte)
    (identity reason baseRunID newRunID : string) (forkEventVersion : Z)
| AddActivityTaskFailedEvent (scheduleEventID startedEventID : Z)
    (request : RespondActivityTaskFailedRequest.t)
| AddWorkflowExecutionSignaled (signalName : string) (input : list byte)
    (identity : string)
| scheduleDecision.

(** The collaborators of the resetter, none of which is among the
    sources: the mutable states (referred to by handles [H] into a
    world [W]), the history store, the state rebuilder, the transaction
    manager and the shard.  Each is taken as given. *)
Class Collaborators (W H : Type) := {
  (* mutableState, reading *)
  GetCurrentVersion : H → W → Z;
  GetInFlightDecision : H → W → option DecisionInfo.t;   (* (decision, ok) *)
  GetNextEventID : H → W → Z;
  GetPendingActivityInfos : H → W → gmap Z ActivityInfo.t;
  GetCurrentBranchToken : H → W → list byte + error;
  (* mutableState, writing: the answer to each call *)
  exec : H → call → W → option error * W;
  (* the order in which [range] enumerates a map is unspecified *)
  rangeMap : gmap Z ActivityInfo.t → list ActivityInfo.t;
  rangeMap_perm : ∀ m, rangeMap m ≡ₚ (map_to_list m).*2;
  (* historyV2Mgr *)
  ForkHistoryBranch : ForkHistoryBranchRequest.t → W → (list byte + error) * W;
  CompleteForkBranch : CompleteForkBranchRequest.t → W → option error * W;
  BuildHistoryGarbageCleanupInfo : string → string → string → string;
  (* the batches that the paging iterator over PaginateHistory yields *)
  historyBatches : Z → Z → list byte → W → list (list HistoryEvent.t + error) * W;
  (* stateRebuilder.rebuild *)
  rebuild : WorkflowIdentifier.t → list byte → Z → Z → WorkflowIdentifier.t
            → list byte → string → W → (H * Z + error) * W;
  (* transactionMgr.loadNDCWorkflow and the release function of its result *)
  loadNDCWorkflow : string → string → string → W → (H + error) * W;
  releaseFn : H → option error → W → W;
  (* shard, constants *)
  GetShardID : Z;
  identityHistoryService : string
}.

Section resetter.
Context {W H : Type} {collab : Collaborators W H} {consts : Constants}.

(** The state the resetter runs in: the world of its collaborators
    and the calls it has made on mutable states, oldest first. *)
Record State := mkState {
  world : W;
  log : list (H * call)
}.

Definition R (A : Type) : Type := State → A * State.

Definition rret {A} (a : A) : R A := λ s, (a, s).
Definition rbind {A B} (m : R A) (k : A → R B) : R B :=
  λ s, let '(a, s') := m s in k a s'.

Declare Scope reset_scope.
Notation "'let*' x ':=' m 'in' k" := (rbind m (λ x, k))
  (at level 10, x pattern, m at level 100, k at level 200) : reset_scope.
Local Open Scope reset_scope.

Definition query {A} (f : W → A) : R A := λ s, (f (world s), s).

Definition external {A} (f : W → A * W) : R A :=
  λ s, let '(a, w) := f (world s) in (a, mkState w (log s)).

Definition invoke (h : H) (c : call) : R (option error) :=
  λ s, let '(e, w) := exec h c (world s) in (e, mkState w (log s ++ [(h, c)])).

(** *** [workflowResetterImpl] *)

Fixpoint failInflightActivity_loop (mutableState : H) (terminateReason : string)
    (ais : list ActivityInfo.t) : R (option error) :=
  match ais with
  | [] => rret None
  | ai :: rest =>
      if bool_decide (ActivityInfo.StartedID ai = EmptyEventID) then
        (* activity not started, noop *)
        failInflightActivity_loop mutableState terminateReason rest
      else if bool_decide (ActivityInfo.StartedID ai = TransientEventID) then
        (* activity is started (with retry policy)
           should not encounter this case when rebuilding mutable state *)
        rret (Some (InternalServiceError "workflowResetter encounter transient activity"))
      else
        let* err := invoke mutableState
          (AddActivityTaskFailedEvent
             (ActivityInfo.ScheduleID ai)
             (ActivityInfo.StartedID ai)
             (RespondActivityTaskFailedRequest.mk
                (Some terminateReason)
                (ActivityInfo.Details ai)
                (Some (ActivityInfo.StartedIdentity ai)))) in
        match err with
        | Some err => rret (Some err)
        | None => failInflightActivity_loop mutableState terminateReason rest
        end
  end.

Definition failInflightActivity (mutableState : H) (terminateReason : string)
    : R (option error) :=
  let* infos := query (GetPendingActivityInfos mutableState) in
  failInflightActivity_loop mutableState terminateReason (rangeMap infos).

Definition generateBranchToken (domainID workflowID : string)
    (forkBranchToken : list byte) (forkNodeID : Z) (resetRunID : string)
    : R (list byte + error) :=
  (* fork a new history branch *)
  let shardID := GetShardID in
  let* resp := external (ForkHistoryBranch
    (ForkHistoryBranchRequest.mk forkBranchToken forkNodeID
       (BuildHistoryGarbageCleanupInfo domainID workflowID resetRunID) shardID)) in
  match resp with
  | inr err => rret (inr err)
  | inl resetBranchToken =>
      (* a failure to complete is logged and otherwise ignored *)
      let* errComplete := external (CompleteForkBranch
        (CompleteForkBranchRequest.mk resetBranchToken true shardID)) in
      rret (inl resetBranchToken)
  end.

Fixpoint reapplyEvents (mutableState : H) (events : list HistoryEvent.t)
    : R (option error) :=
  match events with
  | [] => rret None
  | event :: rest =>
      match HistoryEvent.EventType' event with
      | EventTypeWorkflowExecutionSignaled =>
          let attr := default (WorkflowExecutionSignaledEventAttributes.mk "" [] "")
                        (HistoryEvent.WorkflowExecutionSignaledEventAttributes event) in
          let* err := invoke mutableState
            (AddWorkflowExecutionSignaled
               (WorkflowExecutionSignaledEventAttributes.SignalName attr)
               (WorkflowExecutionSignaledEventAttributes.Input attr)
               (WorkflowExecutionSignaledEventAttributes.Identity attr)) in
          match err with
          | Some err => rret (Some err)
          | None => reapplyEvents mutableState rest
          end
      | _ =>
          (* events other than signal will be ignored *)
          reapplyEvents mutableState rest
      end
  end.

Fixpoint reapplyWorkflowEvents_loop (mutableState : H)
    (batches : list (list HistoryEvent.t + error))
    (lastEvents : list HistoryEvent.t)
    : R (list HistoryEvent.t + error) :=
  match batches with
  | [] => rret (inl lastEvents)
  | inr err :: _ => rret (inr err)
  | inl batch :: rest =>
      let lastEvents := batch in
      let* err := reapplyEvents mutableState lastEvents in
      match err with
      | Some err => rret (inr err)
      | None => reapplyWorkflowEvents_loop mutableState rest lastEvents
      end
  end.

Definition reapplyWorkflowEvents (mutableState : H)
    (firstEventID nextEventID : Z) (branchToken : list byte)
    : R (string + error) :=
  let* iter := external (historyBatches firstEventID nextEventID branchToken) in
  let* r := reapplyWorkflowEvents_loop mutableState iter [] in
  match r with
  | inr err => rret (inr err)
  | inl lastEvents =>
      match last lastEvents with
      | Some lastEvent =>
          match HistoryEvent.EventType' lastEvent with
          | EventTypeWorkflowExecutionContinuedAsNew =>
              rret (inl (default "" (HistoryEvent.NewExecutionRunId lastEvent)))
          | _ => rret (inl "")
          end
      | None => rret (inl "")
      end
  end.

Definition getNextEventIDBranchToken (domainID workflowID runID : string)
    : R (Z * list byte + error) :=
  let* r := external (loadNDCWorkflow domainID workflowID runID) in
  match r with
  | inr err => rret (inr err)
  | inl workflow =>
      let* nextEventID := query (GetNextEventID workflow) in
      let* r := query (GetCurrentBranchToken workflow) in
      match r with
      | inr err =>
          let* _ := external (λ w, (tt, releaseFn workflow (Some err) w)) in
          rret (inr err)
      | inl branchToken =>
          let* _ := external (λ w, (tt, releaseFn workflow None w)) in
          rret (inl (nextEventID, branchToken))
      end
  end.

(** The loop over the continue-as-new chain; [None] when [fuel] runs
    out before the chain ends. *)
Fixpoint reapplyContinueAsNewWorkflowEvents_loop (fuel : nat)
    (resetMutableState : H) (domainID workflowID : string) (nextRunID : string)
    : R (option (option error)) :=
  if bool_decide (String.length nextRunID ≠ 0%nat) then
    match fuel with
    | O => rret None
    | S fuel =>
        let* r := getNextEventIDBranchToken domainID workflowID nextRunID in
        match r with
        | inr err => rret (Some (Some err))
        | inl (nextWorkflowNextEventID, nextWorkflowBranchToken) =>
            let* r := reapplyWorkflowEvents resetMutableState FirstEventID
                        nextWorkflowNextEventID nextWorkflowBranchToken in
            match r with
            | inr err => rret (Some (Some err))
            | inl nextRunID =>
                reapplyContinueAsNewWorkflowEvents_loop fuel resetMutableState
                  domainID workflowID nextRunID
            end
        end
    end
  else rret (Some None).

Definition reapplyContinueAsNewWorkflowEvents (fuel : nat) (resetMutableState : H)
    (domainID workflowID baseRunID : string) (baseBranchToken : list byte)
    (baseRebuildNextEventID baseNextEventID : Z) : R (option (option error)) :=
  (* first special handling the remaining events for base workflow *)
  let* r := reapplyWorkflowEvents resetMutableState baseRebuildNextEventID
              baseNextEventID baseBranchToken in
  match r with
  | inr err => rret (Some (Some err))
  | inl nextRunID =>
      (* second for remaining continue as new workflow, reapply eligible events *)
      reapplyContinueAsNewWorkflowEvents_loop fuel resetMutableState
        domainID workflowID nextRunID
  end.

(** What [prepareResetWorkflow] hands back: the reset workflow (its
    context's history size and its mutable state), an error, or
    nothing when [fuel] ran out. *)
Inductive prepared :=
| Prepared (historySize : Z) (resetMutableState : H)
| Failed (err : error)
| Unfinished.

Definition canOnlyReset (baseRebuildLastEventID : Z) : error :=
  BadRequestError ("Can only reset workflow to DecisionTaskStarted: "
                     +:+ pretty baseRebuildLastEventID).

Definition prepareResetWorkflow (fuel : nat)
    (domainID workflowID baseRunID : string) (baseBranchToken : list byte)
    (baseRebuildLastEventID baseRebuildLastEventVersion baseNextEventID : Z)
    (resetRunID resetRequestID : string) (resetWorkflowVersion : Z)
    (terminateReason resetReason : string)
    (additionalReapplyEvents : list HistoryEvent.t) : R prepared :=
  let* r := generateBranchToken domainID workflowID baseBranchToken
              (int64_add baseRebuildLastEventID 1) resetRunID in
  match r with
  | inr err => rret (Failed err)
  | inl resetBranchToken =>
  let* r := external (rebuild
              (WorkflowIdentifier.mk domainID workflowID baseRunID)
              baseBranchToken baseRebuildLastEventID baseRebuildLastEventVersion
              (WorkflowIdentifier.mk domainID workflowID resetRunID)
              resetBranchToken resetRequestID) in
  match r with
  | inr err => rret (Failed err)
  | inl (resetMutableState, resetHistorySize) =>
  let* baseLastEventVersion := query (GetCurrentVersion resetMutableState) in
  if bool_decide (baseLastEventVersion > resetWorkflowVersion) then
    rret (Failed (InternalServiceError "workflowResetter encounter version mismatch."))
  else
  let* err := invoke resetMutableState (UpdateCurrentVersion resetWorkflowVersion false) in
  match err with
  | Some err => rret (Failed err)
  | None =>
  (* TODO add checking of reset until event ID == decision task started ID + 1 *)
  let* decision := query (GetInFlightDecision resetMutableState) in
  match decision with
  | None => rret (Failed (canOnlyReset baseRebuildLastEventID))
  | Some decision =>
  let* nextEventID := query (GetNextEventID resetMutableState) in
  if bool_decide (int64_add (DecisionInfo.StartedID decision) 1 ≠ nextEventID) then
    rret (Failed (canOnlyReset baseRebuildLastEventID))
  else
  let* err := invoke resetMutableState
    (AddDecisionTaskFailedEvent
       (DecisionInfo.ScheduleID decision)
       (DecisionInfo.StartedID decision) DecisionTaskFailedCauseResetWorkflow
       []
       identityHistoryService
       resetReason
       baseRunID
       resetRunID
       baseLastEventVersion) in
  match err with
  | Some err => rret (Failed err)
  | None =>
  let* err := failInflightActivity resetMutableState terminateReason in
  match err with
  | Some err => rret (Failed err)
  | None =>
  let* r := reapplyContinueAsNewWorkflowEvents fuel resetMutableState
              domainID workflowID baseRunID baseBranchToken
              (int64_add baseRebuildLastEventID 1) baseNextEventID in
  match r with
  | None => rret Unfinished
  | Some (Some err) => rret (Failed err)
  | Some None =>
  let* err := reapplyEvents resetMutableState additionalReapplyEvents in
  match err with
  | Some err => rret (Failed err)
  | None =>
  let* err := invoke resetMutableState scheduleDecision in
  match err with
  | Some err => rret (Failed err)
  | None => rret (Prepared resetHistorySize resetMutableState)
  end end end end end end end end end.

(** *** [workflowResetorImpl2] (the older variant) *)

Fixpoint failInflightActivity2_loop (mutableState : H) (terminateReason : string)
    (ais : list ActivityInfo.t) : R (option error) :=
  match ais with
  | [] => rret None
  | ai :: rest =>
      if bool_decide (ActivityInfo.StartedID ai ≠ EmptyEventID) then
        let* err := invoke mutableState
          (AddActivityTaskFailedEvent
             (ActivityInfo.ScheduleID ai)
             (ActivityInfo.StartedID ai)
             (RespondActivityTaskFailedRequest.mk
                (Some terminateReason)
                (ActivityInfo.Details ai)
                (Some (ActivityInfo.StartedIdentity ai)))) in
        match err with
        | Some err => rret (Some err)
        | None => failInflightActivity2_loop mutableState terminateReason rest
        end
      else failInflightActivity2_loop mutableState terminateReason rest
  end.

Definition failInflightActivity2 (mutableState : H) (terminateReason : string)
    : R (option error) :=
  let* infos := query (GetPendingActivityInfos mutableState) in
  failInflightActivity2_loop mutableState terminateReason (rangeMap infos).

End resetter.

End history.

(** * Specification vocabulary *)

Section vocabulary.
Import common shared persistence.
Context {consts : Constants}.

(** The values [NewVersionHistoryItem] accepts; every item in a store
    was made by it. *)
Definition validItem (i : VersionHistoryItem) : Prop :=
  0 ≤ eventID i ∧ (0 ≤ version i ∨ version i = EmptyVersion).

(** Successive entries grow strictly in both coordinates. *)
Definition precedes (a b : VersionHistoryItem) : Prop :=
  eventID a < eventID b ∧ version a < version b.

Definition increasing (its : list VersionHistoryItem) : Prop :=
  Sorted precedes its.

(** The item values behind a slice of item pointers. *)
Definition itemsAt (σ : Store) (ls : list loc) : option (list VersionHistoryItem) :=
  mapM (λ l, itemHeap σ !! l) ls.

(** A version history as a value: its token and the values of its items. *)
Definition historyAt (σ : Store) (v : loc)
    : option (list byte * list VersionHistoryItem) :=
  vh ← historyHeap σ !! v;
  its ← itemsAt σ (items vh);
  Some (branchToken vh, its).

(** A history owns its items from [n] on when all of them live at
    locations [n] and beyond. *)
Definition ownsFrom (n : nat) (vh : VersionHistory) : Prop :=
  Forall (λ p, (n ≤ p)%nat) (items vh).

(** A run from [σ] to [σ'] is confined to the history [v] and the item
    cells from [n] on: item cells below [n] stay as they are, and of
    the histories only [v] changes, keeping its token and owning its
    items from [n] on. *)
Definition confined (n : nat) (v : loc) (σ σ' : Store) : Prop :=
  take n (itemHeap σ') = take n (itemHeap σ)
  ∧ (length (itemHeap σ) ≤ length (itemHeap σ'))%nat
  ∧ ∃ vh vh', historyHeap σ !! v = Some vh
              ∧ historyHeap σ' = <[v := vh']> (historyHeap σ)
              ∧ branchToken vh' = branchToken vh ∧ ownsFrom n vh'.

(** [σ'] is [σ] with more objects allocated and nothing else changed. *)
Definition extends (σ σ' : Store) : Prop :=
  ∃ extraItems extraHistories,
    σ' = mkStore (itemHeap σ ++ extraItems) (historyHeap σ ++ extraHistories).

(** [v] is a version history with token [token] and item values [its]
    that meets the invariants of the data model. *)
Definition validHistory (σ : Store) (v : loc) (token : list byte)
    (its : list VersionHistoryItem) : Prop :=
  historyAt σ v = Some (token, its) ∧ Forall validItem its ∧ increasing its.

(** [q] is a history allocated by the run from [σ] to [σ'], with token
    [token] and item values [its], all of whose items were allocated by
    that run as well. *)
Definition freshCopy (σ σ' : Store) (q : loc) (token : list byte)
    (its : list VersionHistoryItem) : Prop :=
  extends σ σ'
  ∧ q = length (historyHeap σ)
  ∧ length (historyHeap σ') = S (length (historyHeap σ))
  ∧ ∃ vh, historyHeap σ' !! q = Some vh ∧ branchToken vh = token
          ∧ itemsAt σ' (items vh) = Some its
          ∧ ownsFrom (length (itemHeap σ)) vh.

Definition thriftItem (i : VersionHistoryItem) : shared.VersionHistoryItem :=
  {| EventID := Some (eventID i); Version := Some (version i) |}.

Definition thriftHistory (token : list byte) (its : list VersionHistoryItem)
    : shared.VersionHistory :=
  {| BranchToken := token; Items := (λ i, Some (thriftItem i)) <$> its |}.

Definition lastVersion (its : list VersionHistoryItem) : Z :=
  default 0 (version <$> last its).

(** [c] is the first position of [lvs] holding its greatest element. *)
Definition isFirstMax (lvs : list Z) (c : nat) : Prop :=
  ∃ m, lvs !! c = Some m
       ∧ (∀ j x, lvs !! j = Some x → x ≤ m)
       ∧ (∀ j x, (j < c)%nat → lvs !! j = Some x → x < m).

(** The invariants of the data model on one branch of a
    [VersionHistories] whose first items carry version [g]. *)
Definition goodView (g : Z) (view : list byte * list VersionHistoryItem) : Prop :=
  Forall validItem view.2 ∧ increasing view.2
  ∧ ∃ x, head view.2 = Some x ∧ version x = g.

Definition thriftHistories (idx : Z)
    (views : list (list byte * list VersionHistoryItem)) : shared.VersionHistories :=
  {| CurrentVersionHistoryIndex := Some (int32 idx);
     Histories := (λ view, Some (thriftHistory view.1 view.2)) <$> views |}.

Definition viewsAt (σ : Store) (hs : list loc)
    (views : list (list byte * list VersionHistoryItem)) : Prop :=
  Forall2 (λ q view, validHistory σ q view.1 view.2) hs views.



End vocabulary.

Section queue_vocabulary.
Import shared sqldb sql.

(** The persisted ack level of a cluster, if it has one. *)
Definition ackLevel (db : DB) (queueType : Z) (clusterName : string) : option Z :=
  m ← queueAckLevels (tables db) !! queueType; m !! clusterName.

(** A sequence of [UpdateAckLevel] calls on one queue, each one a
    transaction of its own, whether it succeeds or not. *)
Definition runUpdateAckLevels (q : sqlQueue) (calls : list (Z * string)) (db : DB) : DB :=
  foldl (λ db call, (UpdateAckLevel q call.1 call.2 db).2) db calls.

(** A database whose storage layer is not going to fail. *)
Definition noFaults (db : DB) : Prop := Forall (λ f, f = None) (faults db).

(** The message IDs that [calls] acknowledge for [clusterName], in
    the order of the calls. *)
Definition ackedFor (clusterName : string) (calls : list (Z * string)) : list Z :=
  (filter (λ call, call.2 = clusterName) calls).*1.

End queue_vocabulary.

Section resetter_vocabulary.
Import common shared history.
Context {W H : Type} {collab : Collaborators W H} {consts : Constants}.

Definition isDecisionTaskFailed (entry : H * call) : Prop :=
  match entry.2 with
  | AddDecisionTaskFailedEvent _ _ _ _ _ _ _ _ _ => True
  | _ => False
  end.

(** The decision gate of the canonical resetter: an in-flight decision
    whose started ID, plus one, is the next event ID. *)
Definition atDecisionTaskStarted (h : H) (w : W) : Prop :=
  ∃ d, GetInFlightDecision h w = Some d
       ∧ int64_add (DecisionInfo.StartedID d) 1 = GetNextEventID h w.

(** The request [failInflightActivity] builds for a started activity. *)
Definition failedRequest (terminateReason : string) (ai : ActivityInfo.t)
    : RespondActivityTaskFailedRequest.t :=
  RespondActivityTaskFailedRequest.mk
    (Some terminateReason) (ActivityInfo.Details ai)
    (Some (ActivityInfo.StartedIdentity ai)).

(** [s'] differs from [s] by further calls at the end of the log (and
    by the world). *)
Definition grows (s s' : State (W := W) (H := H)) : Prop :=
  ∃ more, log s' = log s ++ more.

End resetter_vocabulary.

(** * Sample data *)

Module samples.
Import common shared persistence.

(** The constants with the values the specification gives them (and a
    negative sentinel for [EmptyVersion]). *)
Definition constants : Constants :=
  {| EmptyVersion := -24;
     EmptyEventID := 0;
     TransientEventID := -23;
     EmptyEventID_neq_TransientEventID := ltac:(done) |}.

(** One history [(5,0)] and a free-standing item [(6,0)]. *)
Definition σ_update : Store :=
  mkStore [mkItem 5 0; mkItem 6 0] [mkHistory [] [0%nat]].



(** Branches [(3,0)] and [(3,0),(5,1)]; the current branch is the
    first, although the second has the greater last version (a rebuilt
    collection, in the sense of [IsRebuilt]). *)
Definition σ_rebuilt : Store :=
  mkStore [mkItem 3 0; mkItem 3 0; mkItem 5 1]
          [mkHistory ["b"%byte] [0%nat]; mkHistory ["c"%byte] [1%nat; 2%nat]].
Definition h_rebuilt : VersionHistories := mkHistories 0 [0%nat; 1%nat].
Definition h_current : VersionHistories := mkHistories 1 [0%nat; 1%nat].

(** A collection with the single branch [(5,0)], and a candidate
    branch [(3,0),(4,1)] whose first item differs from it in the event
    ID only. *)
Definition σ_genesis : Store :=
  mkStore [mkItem 5 0; mkItem 3 0; mkItem 4 1]
          [mkHistory ["x"%byte] [0%nat]; mkHistory ["y"%byte] [1%nat; 2%nat]].
Definition h_genesis : VersionHistories := mkHistories 0 [0%nat].

End samples.

Module samples_engine.
Import common shared sqldb sql history.

(** A queue of type 0 whose cluster ["a"] has acknowledged message 5. *)
Definition queue0 : sqlQueue := mkQueue 0.
Definition db_acked : DB :=
  mkDB (mkTables [] {[ 0 := {[ "a" := 5 ]} ]}) [].

(** Collaborators of the resetter: one mutable state (handle [tt]) in a
    world that counts the calls made on it; the state has an in-flight
    decision scheduled at 9 and started at 10, next event ID 11, and
    one pending activity, started at 6. *)
Definition activity : ActivityInfo.t := ActivityInfo.mk 5 6 ["d"%byte] "worker".

Definition collaborators : Collaborators nat unit :=
  {| GetCurrentVersion := λ _ _, 1;
     GetInFlightDecision := λ _ _, Some (DecisionInfo.mk 9 10);
     GetNextEventID := λ _ _, 11;
     GetPendingActivityInfos := λ _ _, {[ 5 := activity ]};
     GetCurrentBranchToken := λ _ _, inl [];
     exec := λ _ _ w, (None, S w);
     rangeMap := λ m, (map_to_list m).*2;
     rangeMap_perm := λ m, reflexivity _;
     ForkHistoryBranch := λ _ w, (inl ["t"%byte], w);
     CompleteForkBranch := λ _ w, (None, w);
     BuildHistoryGarbageCleanupInfo := λ _ _ _, "";
     historyBatches := λ _ _ _ w, ([], w);
     rebuild := λ _ _ _ _ _ _ _ w, (inl (tt, 100), w);
     loadNDCWorkflow := λ _ _ _ w, (inl tt, w);
     releaseFn := λ _ _ w, w;
     GetShardID := 0;
     identityHistoryService := "history-service" |}.

End samples_engine.

(** * Properties of [persistence] *)

Section persistence_facts.
Import common shared persistence.
Context {consts : Constants}.
Local Open Scope go_scope.

Lemma bind_Returns {A B} (m : M A) (k : A → M B) σ a σ' :
  m σ = Returns a σ' → bind m k σ = k a σ'.
Proof. unfold bind. by intros ->. Qed.

Lemma loadItem_Some σ p x :
  itemHeap σ !! p = Some x → loadItem p σ = Returns x σ.
Proof. unfold loadItem. by intros ->. Qed.

Lemma loadHistory_Some σ p x :
  historyHeap σ !! p = Some x → loadHistory p σ = Returns x σ.
Proof. unfold loadHistory. by intros ->. Qed.

Lemma NewVersionHistoryItem_valid e ver σ :
  validItem (mkItem e ver) →
  NewVersionHistoryItem e ver σ
  = Returns (length (itemHeap σ)) (mkStore (itemHeap σ ++ [mkItem e ver]) (historyHeap σ)).
Proof.
  intros [He Hv]. simpl in *. unfold NewVersionHistoryItem.
  rewrite bool_decide_eq_false_2 by lia. simpl.
  destruct Hv as [Hv | Hv].
  - by rewrite (bool_decide_eq_false_2 (ver < 0)) by lia.
  - rewrite (bool_decide_eq_false_2 (ver ≠ EmptyVersion)) by (intros ?; done).
    by rewrite andb_false_r.
Qed.

Lemma Item_Duplicate_valid σ item i :
  itemHeap σ !! item = Some i → validItem i →
  Item_Duplicate item σ
  = Returns (length (itemHeap σ)) (mkStore (itemHeap σ ++ [i]) (historyHeap σ)).
Proof.
  intros Hi Hv. unfold Item_Duplicate.
  rewrite (bind_Returns _ _ _ _ _ (loadItem_Some _ _ _ Hi)).
  destruct i as [e ver]. by apply NewVersionHistoryItem_valid.
Qed.

Lemma index_last {A} (s : list A) x :
  last s = Some x → ∀ σ, index s (len s - 1) σ = Returns x σ.
Proof.
  intros Hl σ. unfold index, len.
  assert (length s ≠ 0%nat) by (destruct s; [done | simpl; lia]).
  destruct (decide _) as [_|]; [|lia].
  rewrite last_lookup in Hl.
  replace (Z.to_nat (Z.of_nat (length s) - 1)) with (Nat.pred (length s)) by lia.
  by rewrite Hl.
Qed.

Lemma len_nil_iff {A} (s : list A) : len s = 0 ↔ s = [].
Proof. unfold len. destruct s; simpl; split; intros; try done; lia. Qed.

Lemma increasing_snoc its x :
  increasing its →
  (∀ l, last its = Some l → precedes l x) →
  increasing (its ++ [x]).
Proof.
  unfold increasing. induction its as [|a its IH]; intros Hs Hl; simpl.
  - repeat constructor.
  - inversion Hs as [|? ? Hs' Hhd]; subst. constructor.
    + apply IH; [done|]. intros l Hlast. apply Hl.
      destruct its; [done|]. done.
    + destruct its as [|b its]; simpl.
      * constructor. by apply Hl.
      * inversion Hhd; subst. by constructor.
Qed.

Lemma increasing_raise_last its l e :
  increasing (its ++ [l]) → eventID l < e →
  increasing (its ++ [mkItem e (version l)]).
Proof.
  unfold increasing. induction its as [|a its IH]; intros Hs He; simpl in *.
  - repeat constructor.
  - inversion Hs as [|? ? Hs' Hhd]; subst. constructor; [by apply IH|].
    destruct its as [|b its]; simpl in *.
    + inversion Hhd as [|? ? [H1 H2]]; subst. constructor. split; simpl; lia.
    + inversion Hhd; subst. by constructor.
Qed.

Lemma itemsAt_Some σ ls its :
  itemsAt σ ls = Some its ↔ Forall2 (λ p x, itemHeap σ !! p = Some x) ls its.
Proof. unfold itemsAt. apply mapM_Some. Qed.

Lemma itemsAt_is_Some σ ls :
  (∀ p, p ∈ ls → is_Some (itemHeap σ !! p)) → is_Some (itemsAt σ ls).
Proof.
  intros Hall. unfold itemsAt. apply mapM_is_Some.
  apply Forall_forall. done.
Qed.

Lemma itemsAt_app σ ls1 ls2 its1 its2 :
  itemsAt σ ls1 = Some its1 → itemsAt σ ls2 = Some its2 →
  itemsAt σ (ls1 ++ ls2) = Some (its1 ++ its2).
Proof. rewrite !itemsAt_Some. apply Forall2_app. Qed.

Lemma itemsAt_ext σ σ' ls :
  (∀ p, p ∈ ls → itemHeap σ' !! p = itemHeap σ !! p) →
  itemsAt σ' ls = itemsAt σ ls.
Proof.
  intros Hext. unfold itemsAt. apply Forall_mapM_ext, Forall_forall. done.
Qed.

Lemma itemsAt_grow σ ls its extra hh :
  itemsAt σ ls = Some its →
  itemsAt (mkStore (itemHeap σ ++ extra) hh) ls = Some its.
Proof.
  rewrite !itemsAt_Some. intros HF. eapply Forall2_impl; [exact HF|]. simpl.
  intros p x Hp. by apply lookup_app_l_Some.
Qed.

Lemma itemsAt_snoc_inv σ ls (p : loc) its :
  itemsAt σ (ls ++ [p]) = Some its →
  ∃ its0 l, its = its0 ++ [l] ∧ itemsAt σ ls = Some its0 ∧ itemHeap σ !! p = Some l.
Proof.
  rewrite itemsAt_Some. intros HF.
  apply Forall2_app_inv_l in HF as (its0 & k & H0 & Hk & ->).
  inversion Hk as [|? l ? ? Hp Hnil]; subst. inversion Hnil; subst.
  exists its0, l. by rewrite itemsAt_Some.
Qed.

Lemma increasing_strongly its : increasing its → StronglySorted precedes its.
Proof.
  apply Sorted_StronglySorted. intros a b c [? ?] [? ?]. split; lia.
Qed.

(** In an increasing history the pointer of the last item occurs once. *)
Lemma increasing_last_fresh σ ls (p : loc) its0 l :
  itemsAt σ ls = Some its0 → itemHeap σ !! p = Some l →
  increasing (its0 ++ [l]) → p ∉ ls.
Proof.
  intros Hls Hp Hinc Hin.
  apply increasing_strongly in Hinc.
  apply itemsAt_Some in Hls.
  apply list_elem_of_lookup in Hin as [k Hk].
  destruct (Forall2_lookup_l _ _ _ _ _ Hls Hk) as (x & Hx & Hpx).
  simpl in Hpx. rewrite Hp in Hpx. injection Hpx as <-.
  assert (precedes l l) as [? _]; [|lia].
  clear -Hinc Hx. revert k Hx. induction its0 as [|a its0 IH]; intros k Hx; [done|].
  simpl in Hinc. inversion Hinc as [|? ? Hs Hall]; subst.
  destruct k as [|k]; simpl in Hx.
  - injection Hx as ->. rewrite Forall_app in Hall. destruct Hall as [_ Hall].
    by inversion Hall.
  - by eapply IH.
Qed.

Lemma itemsAt_raise_last σ ls (p : loc) its0 x hh :
  itemsAt σ ls = Some its0 → is_Some (itemHeap σ !! p) → p ∉ ls →
  itemsAt (mkStore (<[p := x]> (itemHeap σ)) hh) (ls ++ [p]) = Some (its0 ++ [x]).
Proof.
  intros Hls Hp Hnin. apply itemsAt_app.
  - rewrite <- Hls. apply itemsAt_ext. simpl. intros q Hq.
    apply list_lookup_insert_ne. intros ->. done.
  - unfold itemsAt. simpl. rewrite list_lookup_insert_eq; [done|].
    by apply lookup_lt_is_Some.
Qed.

Ltac step H := rewrite (bind_Returns _ _ _ _ _ H).

Lemma storeHistory_Some σ p x y :
  historyHeap σ !! p = Some y →
  storeHistory p x σ = Returns tt (mkStore (itemHeap σ) (<[p:=x]> (historyHeap σ))).
Proof. unfold storeHistory. by intros ->. Qed.

Lemma storeItem_Some σ p x y :
  itemHeap σ !! p = Some y →
  storeItem p x σ = Returns tt (mkStore (<[p:=x]> (itemHeap σ)) (historyHeap σ)).
Proof. unfold storeItem. by intros ->. Qed.

Lemma AddOrUpdateItem_empty σ v item vh i :
  historyHeap σ !! v = Some vh → items vh = [] →
  itemHeap σ !! item = Some i → validItem i →
  AddOrUpdateItem v item σ
  = Returns None
      (mkStore (itemHeap σ ++ [i])
               (<[v := mkHistory (branchToken vh) [length (itemHeap σ)]]> (historyHeap σ))).
Proof.
  intros Hv Hnil Hi Hval. unfold AddOrUpdateItem.
  step (loadHistory_Some _ _ _ Hv). rewrite Hnil. simpl.
  step (Item_Duplicate_valid _ _ _ Hi Hval).
  erewrite bind_Returns; [|by apply loadHistory_Some].
  erewrite bind_Returns; [|eapply storeHistory_Some; simpl; exact Hv]. done.
Qed.

Lemma AddOrUpdateItem_nonempty σ v item vh i lastItem l :
  historyHeap σ !! v = Some vh → last (items vh) = Some lastItem →
  itemHeap σ !! item = Some i → validItem i →
  itemHeap σ !! lastItem = Some l →
  AddOrUpdateItem v item σ
  = if bool_decide (version i < version l) then
      Returns (Some (BadRequestError
        ("cannot update version history with a lower version " +:+ pretty (version i)
           +:+ ". Last version: " +:+ pretty (version l)))) σ
    else if bool_decide (eventID i ≤ eventID l) then
      Returns (Some (BadRequestError
        ("cannot add version history with a lower event id " +:+ pretty (eventID i)
           +:+ ". Last event id: " +:+ pretty (eventID l)))) σ
    else if bool_decide (version i > version l) then
      Returns None
        (mkStore (itemHeap σ ++ [i])
                 (<[v := mkHistory (branchToken vh) (items vh ++ [length (itemHeap σ)])]>
                    (historyHeap σ)))
    else
      Returns None
        (mkStore (<[lastItem := mkItem (eventID i) (version l)]> (itemHeap σ))
                 (historyHeap σ)).
Proof.
  intros Hv Hlast Hi Hval Hl. unfold AddOrUpdateItem.
  step (loadHistory_Some _ _ _ Hv).
  rewrite bool_decide_eq_false_2.
  2:{ rewrite len_nil_iff. intros E. by rewrite E in Hlast. }
  step (index_last _ _ Hlast σ).
  step (loadItem_Some _ _ _ Hi). step (loadItem_Some _ _ _ Hl).
  repeat case_bool_decide; try done.
  - step (Item_Duplicate_valid _ _ _ Hi Hval).
    erewrite bind_Returns; [|by apply loadHistory_Some].
    erewrite bind_Returns; [|eapply storeHistory_Some; simpl; exact Hv]. done.
  - step (loadItem_Some _ _ _ Hi). step (loadItem_Some _ _ _ Hl).
    erewrite bind_Returns; [|eapply storeItem_Some; exact Hl]. done.
Qed.

(** C1: [AddOrUpdateItem] by cases.  On an empty history a copy of the
    item, in a fresh cell, becomes the only item.  Otherwise, with [l]
    the value of the last item: the call returns a [BadRequestError]
    and leaves the store alone when the item's version is below
    [l]'s or its event ID is not above [l]'s; it appends a copy in a
    fresh cell when the version is above [l]'s; and when the versions
    agree and the event ID is above [l]'s, the only change to the
    store is that the last item's cell takes the item's event ID.
    Whenever the call returns no error, items that were strictly
    increasing in event ID and version still are. *)
Theorem AddOrUpdateItem_cases σ v item vh i :
  historyHeap σ !! v = Some vh →
  itemHeap σ !! item = Some i →
  validItem i →
  (∀ p, p ∈ items vh → is_Some (itemHeap σ !! p)) →
  match last (items vh) with
  | None =>
      AddOrUpdateItem v item σ
      = Returns None
          (mkStore (itemHeap σ ++ [i])
                   (<[v := mkHistory (branchToken vh) [length (itemHeap σ)]]> (historyHeap σ)))
  | Some lastItem =>
      ∃ l, itemHeap σ !! lastItem = Some l ∧
        ((version i < version l ∨ eventID i ≤ eventID l) →
           ∃ msg, AddOrUpdateItem v item σ = Returns (Some (BadRequestError msg)) σ) ∧
        (version i > version l ∧ eventID i > eventID l →
           AddOrUpdateItem v item σ
           = Returns None
               (mkStore (itemHeap σ ++ [i])
                        (<[v := mkHistory (branchToken vh)
                                          (items vh ++ [length (itemHeap σ)])]>
                           (historyHeap σ)))) ∧
        (version i = version l ∧ eventID i > eventID l →
           AddOrUpdateItem v item σ
           = Returns None
               (mkStore (<[lastItem := mkItem (eventID i) (version l)]> (itemHeap σ))
                        (historyHeap σ)))
  end
  ∧ (∀ σ' its,
       AddOrUpdateItem v item σ = Returns None σ' →
       itemsAt σ (items vh) = Some its → increasing its →
       ∃ vh' its', historyHeap σ' !! v = Some vh'
                   ∧ branchToken vh' = branchToken vh
                   ∧ itemsAt σ' (items vh') = Some its'
                   ∧ increasing its').
Proof.
  intros Hv Hi Hval Hall.
  assert (v < length (historyHeap σ))%nat as Hvlt by by eapply lookup_lt_Some.
  destruct (last (items vh)) as [lastItem|] eqn:Hlast.
  - destruct (Hall lastItem) as [l Hl].
    { apply last_Some in Hlast as [ls ->]. set_solver. }
    pose proof (AddOrUpdateItem_nonempty _ _ _ _ _ _ _ Hv Hlast Hi Hval Hl) as Hrun.
    split.
    + exists l. split; [done|]. repeat split.
      * intros Hrej. rewrite Hrun. repeat case_bool_decide; eauto; lia.
      * intros [? ?]. rewrite Hrun. repeat case_bool_decide; try lia. done.
      * intros [? ?]. rewrite Hrun. repeat case_bool_decide; try lia. done.
    + intros σ' its Hret Hits Hinc. rewrite Hrun in Hret.
      apply last_Some in Hlast as [ls Hls].
      rewrite Hls in Hits.
      destruct (itemsAt_snoc_inv _ _ _ _ Hits) as (its0 & l' & -> & Hits0 & Hl').
      assert (l' = l) as -> by congruence.
      repeat case_bool_decide; try done; injection Hret as <-; simpl.
      * eexists _, _. rewrite list_lookup_insert_eq by done. simpl.
        split; [done|]. split; [done|]. split.
        -- apply itemsAt_app.
           ++ rewrite Hls. apply itemsAt_grow. by apply itemsAt_app; [|rewrite itemsAt_Some; repeat constructor].
           ++ rewrite itemsAt_Some. repeat constructor. simpl.
              by rewrite lookup_app_r, Nat.sub_diag.
        -- apply increasing_snoc; [done|]. intros x. rewrite last_snoc.
           intros [= <-]. split; lia.
      * exists vh, (its0 ++ [mkItem (eventID i) (version l)]).
        split; [done|]. split; [done|]. split.
        -- rewrite Hls. apply itemsAt_raise_last; [done|by eauto|].
           by eapply increasing_last_fresh.
        -- apply increasing_raise_last; [done|lia].
  - apply last_None in Hlast.
    pose proof (AddOrUpdateItem_empty _ _ _ _ _ Hv Hlast Hi Hval) as Hrun.
    split; [done|]. intros σ' its Hret Hits Hinc.
    rewrite Hrun in Hret. injection Hret as <-. simpl.
    eexists _, [i]. rewrite list_lookup_insert_eq by done. simpl.
    split; [done|]. split; [done|]. split.
    + rewrite itemsAt_Some. repeat constructor. simpl.
      by rewrite lookup_app_r, Nat.sub_diag.
    + repeat constructor.
Qed.

Lemma bind_Returns_inv {A B} (m : M A) (k : A → M B) σ b σ' :
  bind m k σ = Returns b σ' →
  ∃ a σ1, m σ = Returns a σ1 ∧ k a σ1 = Returns b σ'.
Proof. unfold bind. destruct (m σ) as [a σ1| |]; [eauto|done|done]. Qed.

Lemma ret_inv {A} (a b : A) σ σ' : ret a σ = Returns b σ' → a = b ∧ σ = σ'.
Proof. unfold ret. by intros [= -> ->]. Qed.

Lemma loadItem_inv σ p x σ' :
  loadItem p σ = Returns x σ' → itemHeap σ !! p = Some x ∧ σ' = σ.
Proof. unfold loadItem. destruct (itemHeap σ !! p); [|done]. by intros [= -> ->]. Qed.

Lemma loadHistory_inv σ p x σ' :
  loadHistory p σ = Returns x σ' → historyHeap σ !! p = Some x ∧ σ' = σ.
Proof. unfold loadHistory. destruct (historyHeap σ !! p); [|done]. by intros [= -> ->]. Qed.

Lemma storeItem_inv σ p x u σ' :
  storeItem p x σ = Returns u σ' →
  is_Some (itemHeap σ !! p) ∧ σ' = mkStore (<[p:=x]> (itemHeap σ)) (historyHeap σ).
Proof. unfold storeItem. destruct (itemHeap σ !! p); [|done]. intros [= _ <-]. eauto. Qed.

Lemma storeHistory_inv σ p x u σ' :
  storeHistory p x σ = Returns u σ' →
  is_Some (historyHeap σ !! p) ∧ σ' = mkStore (itemHeap σ) (<[p:=x]> (historyHeap σ)).
Proof. unfold storeHistory. destruct (historyHeap σ !! p); [|done]. intros [= _ <-]. eauto. Qed.

Lemma NewVersionHistoryItem_inv e ver σ p σ' :
  NewVersionHistoryItem e ver σ = Returns p σ' →
  validItem (mkItem e ver) ∧ p = length (itemHeap σ)
  ∧ σ' = mkStore (itemHeap σ ++ [mkItem e ver]) (historyHeap σ).
Proof.
  unfold NewVersionHistoryItem, validItem, newItem, panic. simpl.
  destruct (bool_decide (e < 0)) eqn:E1; simpl; [done|].
  apply bool_decide_eq_false in E1.
  destruct (bool_decide (ver < 0)) eqn:E2; simpl.
  - destruct (bool_decide (ver ≠ EmptyVersion)) eqn:E3; simpl; [done|].
    apply bool_decide_eq_false in E3.
    intros [= <- <-]. split; [|done]. split; [lia|]. right.
    by destruct (decide (ver = EmptyVersion)).
  - apply bool_decide_eq_false in E2.
    intros [= <- <-]. split; [|done]. split; [lia|]. left. lia.
Qed.

Lemma Item_Duplicate_inv σ item p σ' :
  Item_Duplicate item σ = Returns p σ' →
  ∃ i, itemHeap σ !! item = Some i ∧ validItem i ∧ p = length (itemHeap σ)
       ∧ σ' = mkStore (itemHeap σ ++ [i]) (historyHeap σ).
Proof.
  unfold Item_Duplicate. intros Hb.
  apply bind_Returns_inv in Hb as (i & σ1 & Hi & Hn).
  apply loadItem_inv in Hi as [Hi ->].
  apply NewVersionHistoryItem_inv in Hn as (? & ? & ?).
  exists i. by destruct i.
Qed.

Lemma index_inv {A} (s : list A) i σ x σ' :
  index s i σ = Returns x σ' → 0 ≤ i ∧ s !! Z.to_nat i = Some x ∧ σ' = σ.
Proof.
  unfold index. destruct (decide _); [|done].
  destruct (s !! Z.to_nat i); [|done]. by intros [= -> ->].
Qed.

(** Repeatedly decompose a run that returned into the runs of its steps. *)
Ltac inv_run :=
  repeat match goal with
  | H : bind _ _ _ = Returns _ _ |- _ =>
      let a := fresh "a" in let σ1 := fresh "σ" in
      let H1 := fresh "Hstep" in
      apply bind_Returns_inv in H as (a & σ1 & H1 & H)
  | H : ret _ _ = Returns _ _ |- _ => apply ret_inv in H as [? ?]; subst
  | H : loadItem _ _ = Returns _ _ |- _ => apply loadItem_inv in H as [H ?]; subst
  | H : loadHistory _ _ = Returns _ _ |- _ => apply loadHistory_inv in H as [H ?]; subst
  | H : storeItem _ _ _ = Returns _ _ |- _ => apply storeItem_inv in H as [H ?]; subst
  | H : storeHistory _ _ _ = Returns _ _ |- _ => apply storeHistory_inv in H as [H ?]; subst
  | H : index _ _ _ = Returns _ _ |- _ => apply index_inv in H as (? & H & ?); subst
  | H : Item_Duplicate _ _ = Returns _ _ |- _ =>
      let i := fresh "i" in
      apply Item_Duplicate_inv in H as (i & H & ? & ? & ?); subst
  | H : panic _ _ = Returns _ _ |- _ => discriminate H
  end.

Lemma AddOrUpdateItem_confined n σ v item e σ' vh :
  AddOrUpdateItem v item σ = Returns e σ' →
  historyHeap σ !! v = Some vh → ownsFrom n vh → (n ≤ length (itemHeap σ))%nat →
  take n (itemHeap σ') = take n (itemHeap σ)
  ∧ (length (itemHeap σ) ≤ length (itemHeap σ'))%nat
  ∧ ∃ vh', historyHeap σ' = <[v := vh']> (historyHeap σ)
           ∧ branchToken vh' = branchToken vh ∧ ownsFrom n vh'.
Proof.
  intros Hrun Hv Hown Hn. unfold AddOrUpdateItem in Hrun.
  apply bind_Returns_inv in Hrun as (vh0 & σ1 & Hstep & Hrun).
  apply loadHistory_inv in Hstep as [Hv0 ->].
  assert (vh0 = vh) as -> by congruence.
  assert (historyHeap σ = <[v := vh]> (historyHeap σ)) as Hid
    by (by rewrite list_insert_id).
  case_bool_decide.
  - inv_run. simpl in *. split; [by rewrite take_app_le|].
    split; [rewrite length_app; lia|].
    eexists. split; [done|]. split; [simpl; congruence|].
    unfold ownsFrom. simpl. by repeat constructor.
  - inv_run. repeat case_bool_decide; inv_run; simpl in *.
    + split; [done|]. split; [done|]. by exists vh.
    + split; [done|]. split; [done|]. by exists vh.
    + split; [by rewrite take_app_le|].
      split; [rewrite length_app; lia|].
      eexists. split; [done|]. split; [simpl; congruence|].
      simplify_eq. unfold ownsFrom. simpl. apply Forall_app. split; [done|]. by repeat constructor.
    + split.
      * apply take_insert_ge.
        unfold ownsFrom in Hown. rewrite Forall_lookup in Hown. by eapply Hown.
      * split; [by rewrite length_insert|]. by exists vh.
Qed.

Lemma confined_refl n v σ vh :
  historyHeap σ !! v = Some vh → ownsFrom n vh → confined n v σ σ.
Proof.
  intros Hv Hown. split; [done|]. split; [done|].
  exists vh, vh. by rewrite list_insert_id.
Qed.

Lemma confined_lookup n v σ σ' :
  confined n v σ σ' →
  ∃ vh', historyHeap σ' !! v = Some vh' ∧ ownsFrom n vh'.
Proof.
  intros (_ & _ & vh & vh' & Hv & -> & _ & Hown).
  exists vh'. split; [|done]. apply list_lookup_insert_eq. by eapply lookup_lt_Some.
Qed.

Lemma confined_trans n v σ1 σ2 σ3 :
  confined n v σ1 σ2 → confined n v σ2 σ3 → confined n v σ1 σ3.
Proof.
  intros H12 H23.
  destruct (confined_lookup _ _ _ _ H12) as (vh2' & Hv2' & _).
  destruct H12 as (Ht1 & Hl1 & vh1 & vh2 & Hv1 & Hh1 & Hb1 & Ho1).
  destruct H23 as (Ht2 & Hl2 & vh2'' & vh3 & Hv2 & Hh2 & Hb2 & Ho2).
  assert (vh2'' = vh2) as ->.
  { rewrite Hh1 in Hv2. rewrite list_lookup_insert_eq in Hv2; [congruence|].
    by eapply lookup_lt_Some. }
  split; [congruence|]. split; [lia|].
  exists vh1, vh3. split; [done|]. split; [|split; [congruence|done]].
  by rewrite Hh2, Hh1, list_insert_insert_eq.
Qed.

Lemma AddOrUpdateItem_confined' n σ v item e σ' vh :
  AddOrUpdateItem v item σ = Returns e σ' →
  historyHeap σ !! v = Some vh → ownsFrom n vh → (n ≤ length (itemHeap σ))%nat →
  confined n v σ σ'.
Proof.
  intros Hrun Hv Hown Hn.
  destruct (AddOrUpdateItem_confined _ _ _ _ _ _ _ Hrun Hv Hown Hn)
    as (? & ? & vh' & ? & ? & ?).
  split; [done|]. split; [done|]. by exists vh, vh'.
Qed.

Lemma DuplicateUntilLCAItem_loop_confined n versionHistory lcaItem its :
  ∀ σ r σ' vh,
    DuplicateUntilLCAItem_loop versionHistory lcaItem its σ = Returns r σ' →
    historyHeap σ !! versionHistory = Some vh → ownsFrom n vh →
    (n ≤ length (itemHeap σ))%nat →
    confined n versionHistory σ σ' ∧ (∀ x, r = Ok x → x = versionHistory).
Proof.
  induction its as [|item rest IH]; intros σ r σ' vh Hrun Hv Hown Hn; simpl in Hrun.
  - inv_run. split; [by eapply confined_refl | done].
  - inv_run. repeat case_bool_decide.
    + apply bind_Returns_inv in Hrun as (e & σ1 & Hadd & Hrun).
      pose proof (AddOrUpdateItem_confined' _ _ _ _ _ _ _ Hadd Hv Hown Hn) as Hc.
      destruct e as [e|].
      * inv_run. done.
      * destruct (confined_lookup _ _ _ _ Hc) as (vh1 & Hv1 & Hown1).
        destruct (IH _ _ _ _ Hrun Hv1 Hown1) as [Hc2 Hr].
        { destruct Hc as (_ & ? & _). lia. }
        split; [by eapply confined_trans | done].
    + inv_run. split; [by eapply confined_refl | done].
    + apply bind_Returns_inv in Hrun as (e & σ1 & Hadd & Hrun).
      pose proof (AddOrUpdateItem_confined' _ _ _ _ _ _ _ Hadd Hv Hown Hn) as Hc.
      destruct e as [e|]; inv_run; split; try done. by intros x [= ->].
    + inv_run. split; [by eapply confined_refl | done].
Qed.

(** C10: when [DuplicateUntilLCAItem] succeeds, its result is a newly
    allocated history whose branch token is empty, whatever the token
    of [v]; the store is otherwise as before (objects were only
    added), so that [v], its token, its item pointers and the values
    of its items are untouched; and [SetBranchToken] installs a token
    on the result afterwards. *)
Theorem DuplicateUntilLCAItem_empty_token σ v lcaItem r σ' :
  DuplicateUntilLCAItem v lcaItem σ = Returns (Ok r) σ' →
  (∃ vh' extra,
      r = length (historyHeap σ)
      ∧ historyHeap σ' = historyHeap σ ++ [vh']
      ∧ itemHeap σ' = itemHeap σ ++ extra
      ∧ branchToken vh' = [])
  ∧ GetBranchToken r σ' = Returns [] σ'
  ∧ (∀ vh its,
       historyHeap σ !! v = Some vh → itemsAt σ (items vh) = Some its →
       historyHeap σ' !! v = Some vh ∧ itemsAt σ' (items vh) = Some its)
  ∧ ∀ inputToken, ∃ σ'',
      SetBranchToken r inputToken σ' = Returns None σ''
      ∧ GetBranchToken r σ'' = Returns inputToken σ''.
Proof.
  intros Hrun. unfold DuplicateUntilLCAItem in Hrun.
  apply bind_Returns_inv in Hrun as (vhp & σ1 & Hnew & Hrun).
  unfold NewVersionHistory, newHistory in Hnew. simpl in Hnew.
  apply bind_Returns_inv in Hnew as (vhp' & σ0 & Hnew & Hnew2).
  injection Hnew as <- <-. inv_run.
  set (n := length (itemHeap σ)). set (hist := historyHeap σ) in *.
  assert (historyHeap (mkStore (itemHeap σ) (hist ++ [mkHistory [] []])) !! length hist
          = Some (mkHistory [] [])) as Hv0.
  { simpl. by rewrite lookup_app_r, Nat.sub_diag. }
  destruct (DuplicateUntilLCAItem_loop_confined n _ _ _ _ _ _ _ Hrun Hv0) as [Hc Hr].
  { unfold ownsFrom. simpl. constructor. }
  { simpl. lia. }
  rewrite (Hr r eq_refl).
  destruct Hc as (Ht & Hl & vh & vh' & Hv & Hh & Hb & Hown). simpl in *.
  assert (vh = mkHistory [] []) as ->.
  { rewrite lookup_app_r, Nat.sub_diag in Hv by done. by injection Hv. }
  simpl in Hb.
  assert (historyHeap σ' = hist ++ [vh']) as Hh'.
  { rewrite Hh. replace (length hist) with (length hist + 0)%nat by lia.
    by rewrite insert_app_r. }
  assert (itemHeap σ' = itemHeap σ ++ drop n (itemHeap σ')) as Hi'.
  { rewrite <- (take_drop n (itemHeap σ')) at 1. rewrite Ht.
    by rewrite take_ge. }
  assert (historyHeap σ' !! length hist = Some vh') as Hr'.
  { by rewrite Hh', lookup_app_r, Nat.sub_diag. }
  split; [by exists vh', (drop n (itemHeap σ'))|].
  split.
  { unfold GetBranchToken. erewrite bind_Returns; [|by apply loadHistory_Some].
    by rewrite Hb. }
  split.
  { intros vh its Hvh Hits. split.
    - rewrite Hh'. by apply lookup_app_l_Some.
    - destruct σ' as [ih hh]. simpl in Hi'. rewrite Hi'. by apply itemsAt_grow. }
  intros inputToken. eexists. unfold SetBranchToken, GetBranchToken. split.
  - erewrite bind_Returns; [|by apply loadHistory_Some].
    erewrite bind_Returns; [|eapply storeHistory_Some; exact Hr']. done.
  - erewrite bind_Returns; [|apply loadHistory_Some; simpl;
      apply list_lookup_insert_eq; by eapply lookup_lt_Some].
    done.
Qed.

Lemma itemsAt_last σ ls its (p : loc) :
  itemsAt σ ls = Some its → last ls = Some p →
  ∃ l, last its = Some l ∧ itemHeap σ !! p = Some l.
Proof.
  intros Hits Hlast. apply last_Some in Hlast as [ls' ->].
  destruct (itemsAt_snoc_inv _ _ _ _ Hits) as (its0 & l & -> & _ & Hl).
  exists l. by rewrite last_snoc.
Qed.

Lemma itemsAt_nil_inv σ ls : itemsAt σ ls = Some [] → ls = [].
Proof. intros Hits. apply length_mapM in Hits. by destruct ls. Qed.

(** Adding an item that lies beyond the last one appends a copy of it. *)
Lemma AddOrUpdateItem_extend σ v item vh i its :
  historyHeap σ !! v = Some vh → itemHeap σ !! item = Some i → validItem i →
  itemsAt σ (items vh) = Some its →
  (∀ l, last its = Some l → precedes l i) →
  AddOrUpdateItem v item σ
  = Returns None
      (mkStore (itemHeap σ ++ [i])
               (<[v := mkHistory (branchToken vh) (items vh ++ [length (itemHeap σ)])]>
                  (historyHeap σ))).
Proof.
  intros Hv Hi Hval Hits Hprec.
  destruct (last (items vh)) as [lastItem|] eqn:Hlast.
  - destruct (itemsAt_last _ _ _ _ Hits Hlast) as (l & Hl & Hpl).
    rewrite (AddOrUpdateItem_nonempty _ _ _ _ _ _ _ Hv Hlast Hi Hval Hpl).
    destruct (Hprec _ Hl). repeat case_bool_decide; try lia. done.
  - apply last_None in Hlast.
    rewrite (AddOrUpdateItem_empty _ _ _ _ _ Hv Hlast Hi Hval). by rewrite Hlast.
Qed.

Lemma increasing_app_inv its1 its2 : increasing (its1 ++ its2) → increasing its1.
Proof.
  unfold increasing. induction its1 as [|a its1 IH]; simpl; intros Hs; [constructor|].
  inversion Hs as [|? ? Hs' Hhd]; subst. constructor; [by apply IH|].
  destruct its1; simpl in *; [constructor|]. inversion Hhd; subst. by constructor.
Qed.

Lemma increasing_mid its x rest l :
  increasing (its ++ x :: rest) → last its = Some l → precedes l x.
Proof.
  unfold increasing. induction its as [|a its IH]; simpl; intros Hs Hl; [done|].
  inversion Hs as [|? ? Hs' Hhd]; subst.
  destruct its as [|b its]; simpl in *.
  - injection Hl as <-. by inversion Hhd.
  - by apply IH.
Qed.

Lemma NewVersionHistory_loop_spec rest :
  ∀ σ v vh done restvals,
    historyHeap σ !! v = Some vh →
    itemsAt σ (items vh) = Some done →
    itemsAt σ rest = Some restvals →
    Forall validItem restvals →
    increasing (done ++ restvals) →
    ∃ extra locs,
      NewVersionHistory_loop v rest σ
      = Returns tt (mkStore (itemHeap σ ++ extra)
                            (<[v := mkHistory (branchToken vh) (items vh ++ locs)]>
                               (historyHeap σ)))
      ∧ itemsAt (mkStore (itemHeap σ ++ extra) (historyHeap σ)) locs = Some restvals
      ∧ Forall (λ p, (length (itemHeap σ) ≤ p)%nat) locs.
Proof.
  induction rest as [|item rest IH]; intros σ v vh done restvals Hv Hdone Hrest Hval Hinc.
  - apply itemsAt_Some in Hrest. inversion Hrest; subst.
    exists [], []. rewrite !app_nil_r. simpl. split; [|done].
    unfold ret. f_equal. destruct σ as [ih hh]. simpl in *. f_equal.
    symmetry. apply list_insert_id. rewrite Hv. by destruct vh.
  - apply itemsAt_Some in Hrest.
    inversion Hrest as [|? x ? restvals' Hx Hrest']; subst.
    apply itemsAt_Some in Hrest'.
    inversion Hval as [|? ? Hvx Hval']; subst.
    simpl.
    rewrite (bind_Returns _ _ _ _ _ (Item_Duplicate_valid _ _ _ Hx Hvx)).
    set (σ1 := mkStore (itemHeap σ ++ [x]) (historyHeap σ)).
    assert (itemHeap σ1 !! length (itemHeap σ) = Some x) as Hd.
    { simpl. by rewrite lookup_app_r, Nat.sub_diag. }
    assert (itemsAt σ1 (items vh) = Some done) as Hdone1 by by apply itemsAt_grow.
    erewrite bind_Returns.
    2:{ eapply (AddOrUpdateItem_extend σ1); try done.
        intros l Hl. by eapply increasing_mid. }
    simpl.
    set (vh' := mkHistory (branchToken vh)
                          (items vh ++ [length (itemHeap σ ++ [x])])).
    set (σ2 := mkStore ((itemHeap σ ++ [x]) ++ [x]) (<[v:=vh']> (historyHeap σ))).
    assert (v < length (historyHeap σ))%nat as Hvlt by by eapply lookup_lt_Some.
    destruct (IH σ2 v vh' (done ++ [x]) restvals') as (extra & locs & Hrun & Hlocs & Hfresh).
    + simpl. by apply list_lookup_insert_eq.
    + simpl. apply itemsAt_app; [by apply (itemsAt_grow σ1 _ _ [x])|].
      apply itemsAt_Some. repeat constructor. simpl.
      rewrite lookup_app_r by done. by rewrite Nat.sub_diag.
    + by apply (itemsAt_grow σ1 _ _ [x]), (itemsAt_grow σ _ _ [x]).
    + done.
    + by rewrite <- app_assoc.
    + exists ([x; x] ++ extra), (length (itemHeap σ ++ [x]) :: locs).
      split; [|split].
      * rewrite Hrun. simpl. rewrite list_insert_insert_eq.
        do 2 f_equal; [by rewrite <- !app_assoc|].
        by rewrite <- app_assoc.
      * apply itemsAt_Some. constructor.
        -- simpl. rewrite length_app. simpl.
           rewrite lookup_app_r by lia.
           by replace (length (itemHeap σ) + 1 - length (itemHeap σ))%nat with 1%nat by lia.
        -- apply itemsAt_Some.
           rewrite <- Hlocs. apply itemsAt_ext. simpl. intros p _.
           by rewrite <- !app_assoc.
      * constructor; [rewrite length_app; lia|].
        eapply Forall_impl; [exact Hfresh|]. simpl. intros p.
        rewrite !length_app. simpl. lia.
Qed.

Lemma extends_refl σ : extends σ σ.
Proof. exists [], []. rewrite !app_nil_r. by destruct σ. Qed.

Lemma extends_trans σ1 σ2 σ3 : extends σ1 σ2 → extends σ2 σ3 → extends σ1 σ3.
Proof.
  intros (e1 & h1 & ->) (e2 & h2 & ->). simpl.
  exists (e1 ++ e2), (h1 ++ h2). by rewrite !app_assoc.
Qed.

Lemma extends_newItem σ x : extends σ (mkStore (itemHeap σ ++ [x]) (historyHeap σ)).
Proof. exists [x], []. by rewrite app_nil_r. Qed.

Lemma extends_itemHeap σ σ' (p : loc) x :
  extends σ σ' → itemHeap σ !! p = Some x → itemHeap σ' !! p = Some x.
Proof. intros (e & h & ->) Hp. simpl. by apply lookup_app_l_Some. Qed.

Lemma extends_historyHeap σ σ' (p : loc) x :
  extends σ σ' → historyHeap σ !! p = Some x → historyHeap σ' !! p = Some x.
Proof. intros (e & h & ->) Hp. simpl. by apply lookup_app_l_Some. Qed.

Lemma extends_length σ σ' :
  extends σ σ' →
  (length (itemHeap σ) ≤ length (itemHeap σ'))%nat
  ∧ (length (historyHeap σ) ≤ length (historyHeap σ'))%nat.
Proof. intros (e & h & ->). simpl. rewrite !length_app. lia. Qed.

Lemma extends_itemsAt σ σ' ls its :
  extends σ σ' → itemsAt σ ls = Some its → itemsAt σ' ls = Some its.
Proof. intros (e & h & ->). apply itemsAt_grow. Qed.

Lemma historyAt_Some σ v token its :
  historyAt σ v = Some (token, its) ↔
  ∃ vh, historyHeap σ !! v = Some vh ∧ branchToken vh = token
        ∧ itemsAt σ (items vh) = Some its.
Proof.
  unfold historyAt. split.
  - destruct (historyHeap σ !! v) as [vh|] eqn:Hv; simpl; [|done].
    destruct (itemsAt σ (items vh)) as [its'|] eqn:Hits; simpl; [|done].
    intros [= <- <-]. by exists vh.
  - intros (vh & -> & <- & Hits). simpl. by rewrite Hits.
Qed.

Lemma extends_historyAt σ σ' v x :
  extends σ σ' → historyAt σ v = Some x → historyAt σ' v = Some x.
Proof.
  intros Hext. destruct x as [token its]. rewrite !historyAt_Some.
  intros (vh & Hv & Ht & Hits). exists vh.
  eauto using extends_historyHeap, extends_itemsAt.
Qed.

Lemma extends_validHistory σ σ' v token its :
  extends σ σ' → validHistory σ v token its → validHistory σ' v token its.
Proof. intros Hext (Hat & ? & ?). split; [by eapply extends_historyAt | done]. Qed.

Lemma freshCopy_historyAt σ σ' q token its :
  freshCopy σ σ' q token its → historyAt σ' q = Some (token, its).
Proof. intros (_ & _ & _ & vh & ? & ? & ? & _). apply historyAt_Some. eauto. Qed.

Lemma freshCopy_extends_l σ0 σ σ' q token its :
  extends σ0 σ → freshCopy σ σ' q token its → extends σ0 σ'.
Proof. intros H0 (H1 & _). by eapply extends_trans. Qed.

Lemma insert_at_end {A} (l : list A) x y : <[length l := x]> (l ++ [y]) = l ++ [x].
Proof. replace (length l) with (length l + 0)%nat by lia. by rewrite insert_app_r. Qed.

Lemma NewVersionHistory_spec σ token inputItems its :
  itemsAt σ inputItems = Some its → Forall validItem its → increasing its →
  ∃ σ', NewVersionHistory token inputItems σ = Returns (length (historyHeap σ)) σ'
        ∧ freshCopy σ σ' (length (historyHeap σ)) token its.
Proof.
  intros Hits Hval Hinc. unfold NewVersionHistory, newHistory.
  set (σ1 := mkStore (itemHeap σ) (historyHeap σ ++ [mkHistory token []])).
  assert (historyHeap σ1 !! length (historyHeap σ) = Some (mkHistory token [])) as Hv.
  { simpl. by rewrite lookup_app_r, Nat.sub_diag. }
  destruct (NewVersionHistory_loop_spec inputItems σ1 _ _ [] its Hv)
    as (extra & locs & Hrun & Hlocs & Hfresh); try done.
  eexists. unfold bind at 1. fold σ1. rewrite (bind_Returns _ _ _ _ _ Hrun).
  split; [done|]. simpl.
  rewrite insert_at_end.
  split; [by exists extra, [mkHistory token locs]|].
  split; [done|]. split; [simpl; rewrite ?length_app; simpl; lia|].
  exists (mkHistory token locs). split.
  { simpl. by rewrite lookup_app_r, Nat.sub_diag. }
  split; [done|]. split; [|done].
  simpl. rewrite <- Hlocs. by apply itemsAt_ext.
Qed.

Lemma History_Duplicate_spec σ v token its :
  validHistory σ v token its →
  ∃ σ', History_Duplicate v σ = Returns (length (historyHeap σ)) σ'
        ∧ freshCopy σ σ' (length (historyHeap σ)) token its.
Proof.
  intros (Hat & Hval & Hinc). apply historyAt_Some in Hat as (vh & Hv & <- & Hits).
  unfold History_Duplicate. rewrite (bind_Returns _ _ _ _ _ (loadHistory_Some _ _ _ Hv)).
  by apply NewVersionHistory_spec.
Qed.

Lemma GetFirstItem_spec σ v token its :
  validHistory σ v token its →
  GetFirstItem v σ
  = match its with
    | [] => Returns (Err emptyErr) σ
    | x :: _ => Returns (Ok (length (itemHeap σ)))
                        (mkStore (itemHeap σ ++ [x]) (historyHeap σ))
    end.
Proof.
  intros (Hat & Hval & Hinc). apply historyAt_Some in Hat as (vh & Hv & <- & Hits).
  unfold GetFirstItem. rewrite (bind_Returns _ _ _ _ _ (loadHistory_Some _ _ _ Hv)).
  destruct its as [|x its].
  - apply itemsAt_nil_inv in Hits. by rewrite Hits.
  - apply itemsAt_Some in Hits. inversion Hits as [|p ? ls ? Hp Hrest Heq]; subst.
    simpl. inversion Hval; subst.
    unfold index. simpl. unfold bind at 1. unfold ret at 1.
    by rewrite (bind_Returns _ _ _ _ _ (Item_Duplicate_valid _ _ _ Hp ltac:(done))).
Qed.

Lemma GetLastItem_spec σ v token its :
  validHistory σ v token its →
  GetLastItem v σ
  = match last its with
    | None => Returns (Err emptyErr) σ
    | Some x => Returns (Ok (length (itemHeap σ)))
                        (mkStore (itemHeap σ ++ [x]) (historyHeap σ))
    end.
Proof.
  intros (Hat & Hval & Hinc). apply historyAt_Some in Hat as (vh & Hv & <- & Hits).
  unfold GetLastItem. rewrite (bind_Returns _ _ _ _ _ (loadHistory_Some _ _ _ Hv)).
  destruct (last (items vh)) as [p|] eqn:Hlast.
  - destruct (itemsAt_last _ _ _ _ Hits Hlast) as (x & Hx & Hp). rewrite Hx.
    rewrite bool_decide_eq_false_2.
    2:{ rewrite len_nil_iff. intros E. by rewrite E in Hlast. }
    rewrite (bind_Returns _ _ _ _ _ (index_last _ _ Hlast σ)).
    assert (validItem x) as Hvx.
    { rewrite Forall_forall in Hval. apply Hval.
      apply last_Some in Hx as [? ->]. set_solver. }
    by rewrite (bind_Returns _ _ _ _ _ (Item_Duplicate_valid _ _ _ Hp Hvx)).
  - apply last_None in Hlast. rewrite Hlast in *. 
    apply itemsAt_Some in Hits. inversion Hits; subst. done.
Qed.

Lemma GetVersionHistory_Some h (i : Z) c σ :
  0 ≤ i → histories h !! Z.to_nat i = Some c →
  GetVersionHistory h i σ = Returns (Ok c) σ.
Proof.
  intros Hi Hc. unfold GetVersionHistory.
  assert (Z.to_nat i < length (histories h))%nat by by eapply lookup_lt_Some.
  rewrite bool_decide_eq_false_2 by lia.
  rewrite bool_decide_eq_false_2 by (unfold len; lia). simpl.
  unfold index. destruct (decide _); [|lia]. by rewrite Hc.
Qed.

Lemma AddVersionHistory_run σ h c tokc itsc y v tokv itsv :
  0 ≤ currentVersionHistoryIndex h →
  histories h !! Z.to_nat (currentVersionHistoryIndex h) = Some c →
  validHistory σ c tokc itsc →
  head itsc = Some y →
      validHistory σ v tokv itsv →
      match head itsv, last itsv, last itsc with
      | Some x, Some lv, Some lc =>
          if bool_decide (version x ≠ version y) then
            ∃ σ', AddVersionHistory h (Some v) σ
                  = Returns (h, (false, 0,
                       Some (BadRequestError "version history first item does not match.")))
                      σ'
                  ∧ extends σ σ'
          else
            ∃ σ' q,
              let newIndex := len (histories h ++ [q]) - 1 in
              let changed := bool_decide (version lv > version lc) in
              AddVersionHistory h (Some v) σ
              = Returns (mkHistories (if changed then newIndex
                                      else currentVersionHistoryIndex h)
                                     (histories h ++ [q]),
                         (changed, newIndex, None)) σ'
              ∧ extends σ σ'
              ∧ q = length (historyHeap σ)
              ∧ ∃ vh, historyHeap σ' !! q = Some vh ∧ branchToken vh = tokv
                      ∧ itemsAt σ' (items vh) = Some itsv
                      ∧ ownsFrom (length (itemHeap σ)) vh
      | _, _, _ =>
          AddVersionHistory h (Some v) σ = Returns (h, (false, 0, Some emptyErr)) σ
      end.
Proof.
  intros Hidx Hc Hvc Hy Hvv. unfold AddVersionHistory.
  pose proof (GetFirstItem_spec _ _ _ _ Hvv) as Hfv.
  pose proof (GetLastItem_spec) as Hlast.
  destruct itsv as [|x itsv0] eqn:Eitsv.
  { simpl. by rewrite (bind_Returns _ _ _ _ _ Hfv). }
  rewrite <- Eitsv in *.
  assert (head itsv = Some x) as -> by by rewrite Eitsv.
  destruct (last itsv) as [lv|] eqn:Hlv;
    [|by rewrite Eitsv, last_cons in Hlv; destruct (last itsv0)].
  destruct itsc as [|y' itsc0] eqn:Eitsc; [done|]. rewrite <- Eitsc in *.
  assert (y' = y) as -> by (rewrite Eitsc in Hy; by injection Hy).
  destruct (last itsc) as [lc|] eqn:Hlc;
    [|by rewrite Eitsc, last_cons in Hlc; destruct (last itsc0)].
  rewrite (bind_Returns _ _ _ _ _ Hfv).
  set (σ1 := mkStore (itemHeap σ ++ [x]) (historyHeap σ)).
  assert (extends σ σ1) as Hext1 by apply extends_newItem.
  rewrite (bind_Returns _ _ _ _ _ (GetVersionHistory_Some _ _ _ σ1 Hidx Hc)).
  pose proof (extends_validHistory _ _ _ _ _ Hext1 Hvc) as Hvc1.
  pose proof (GetFirstItem_spec _ _ _ _ Hvc1) as Hfc. rewrite Eitsc in Hfc.
  rewrite (bind_Returns _ _ _ _ _ Hfc).
  set (σ2 := mkStore (itemHeap σ1 ++ [y]) (historyHeap σ1)).
  assert (extends σ1 σ2) as Hext2 by apply extends_newItem.
  assert (extends σ σ2) as Hext02 by by eapply extends_trans.
  erewrite bind_Returns.
  2:{ apply loadItem_Some. simpl.
      rewrite lookup_app_l by (rewrite length_app; simpl; lia).
      by rewrite lookup_app_r, Nat.sub_diag. }
  erewrite bind_Returns.
  2:{ apply loadItem_Some. simpl. by rewrite lookup_app_r, Nat.sub_diag. }
  case_bool_decide as Hver.
  { exists σ2. done. }
  pose proof (extends_validHistory _ _ _ _ _ Hext02 Hvv) as Hvv2.
  destruct (History_Duplicate_spec _ _ _ _ Hvv2) as (σ3 & Hdup & Hcopy).
  rewrite (bind_Returns _ _ _ _ _ Hdup).
  destruct Hcopy as (Hext3 & _ & Hlen3 & vh & Hq & Htok & Hits & Hown).
  assert (validHistory σ3 (length (historyHeap σ2)) tokv itsv) as Hvq.
  { destruct Hvv as (_ & ? & ?). split; [|done]. apply historyAt_Some. eauto. }
  pose proof (GetLastItem_spec _ _ _ _ Hvq) as Hlq. rewrite Hlv in Hlq.
  rewrite (bind_Returns _ _ _ _ _ Hlq).
  set (σ4 := mkStore (itemHeap σ3 ++ [lv]) (historyHeap σ3)).
  assert (extends σ3 σ4) as Hext4 by apply extends_newItem.
  assert (extends σ σ3) as Hext03 by by eapply extends_trans.
  assert (extends σ σ4) as Hext04 by by eapply extends_trans.
  pose proof (extends_validHistory _ _ _ _ _ Hext04 Hvc) as Hvc4.
  pose proof (GetLastItem_spec _ _ _ _ Hvc4) as Hlc4. rewrite Hlc in Hlc4.
  rewrite (bind_Returns _ _ _ _ _ Hlc4).
  set (σ5 := mkStore (itemHeap σ4 ++ [lc]) (historyHeap σ4)).
  assert (extends σ4 σ5) as Hext5 by apply extends_newItem.
  assert (extends σ σ5) as Hext05 by by eapply extends_trans.
  assert (extends σ3 σ5) as Hext35 by by eapply extends_trans.
  erewrite bind_Returns.
  2:{ apply loadItem_Some. simpl.
      rewrite lookup_app_l by (rewrite length_app; simpl; lia).
      by rewrite lookup_app_r, Nat.sub_diag. }
  erewrite bind_Returns.
  2:{ apply loadItem_Some. simpl. by rewrite lookup_app_r, Nat.sub_diag. }
  exists σ5, (length (historyHeap σ2)). simpl.
  split; [by case_bool_decide|].
  split; [done|]. split; [done|].
  exists vh. split; [exact Hq|]. split; [done|].
  split; [by eapply extends_itemsAt|].
  eapply Forall_impl; [exact Hown|]. simpl. intros p. rewrite !length_app. simpl. lia.
Qed.

(** C6, as the code has it: [AddVersionHistory] returns a
    [BadRequestError] when [v] is nil, when [v] has no items, and when
    the version of [v]'s first item differs from the version of the
    first item of the current history (the event IDs of the first
    items are not compared).  Otherwise it appends a deep copy [q] of
    [v] (a new history made of new item cells, nothing else in the
    store changed) at the index [len(histories) - 1], and it makes
    that index current and reports a change exactly when the version
    of [v]'s last item exceeds that of the current history's last
    item. *)
Theorem AddVersionHistory_cases σ h c tokc itsc y :
  0 ≤ currentVersionHistoryIndex h →
  histories h !! Z.to_nat (currentVersionHistoryIndex h) = Some c →
  validHistory σ c tokc itsc →
  head itsc = Some y →
  AddVersionHistory h None σ
  = Returns (h, (false, 0, Some (BadRequestError "version histories is null."))) σ
  ∧ ∀ v tokv itsv,
      validHistory σ v tokv itsv →
      match head itsv, last itsv, last itsc with
      | Some x, Some lv, Some lc =>
          if bool_decide (version x ≠ version y) then
            ∃ σ', AddVersionHistory h (Some v) σ
                  = Returns (h, (false, 0,
                       Some (BadRequestError "version history first item does not match.")))
                      σ'
                  ∧ extends σ σ'
          else
            ∃ σ' q,
              let newIndex := len (histories h ++ [q]) - 1 in
              let changed := bool_decide (version lv > version lc) in
              AddVersionHistory h (Some v) σ
              = Returns (mkHistories (if changed then newIndex
                                      else currentVersionHistoryIndex h)
                                     (histories h ++ [q]),
                         (changed, newIndex, None)) σ'
              ∧ extends σ σ'
              ∧ q = length (historyHeap σ)
              ∧ ∃ vh, historyHeap σ' !! q = Some vh ∧ branchToken vh = tokv
                      ∧ itemsAt σ' (items vh) = Some itsv
                      ∧ ownsFrom (length (itemHeap σ)) vh
      | _, _, _ =>
          AddVersionHistory h (Some v) σ = Returns (h, (false, 0, Some emptyErr)) σ
      end.
Proof.
  intros Hidx Hc Hvc Hy. split; [done|].
  intros v tokv itsv Hvv. by eapply AddVersionHistory_run.
Qed.

Lemma Item_ToThrift_spec σ (p : loc) x :
  itemHeap σ !! p = Some x → Item_ToThrift p σ = Returns (thriftItem x) σ.
Proof.
  intros Hp. unfold Item_ToThrift.
  by rewrite (bind_Returns _ _ _ _ _ (loadItem_Some _ _ _ Hp)).
Qed.

Lemma History_ToThrift_loop_spec σ ls :
  ∀ its acc,
    itemsAt σ ls = Some its →
    History_ToThrift_loop ls acc σ
    = Returns (acc ++ ((λ i, Some (thriftItem i)) <$> its)) σ.
Proof.
  induction ls as [|p ls IH]; intros its acc Hits;
    apply itemsAt_Some in Hits; inversion Hits as [|? x ? its' Hp Hrest]; subst; simpl.
  - by rewrite app_nil_r.
  - rewrite (bind_Returns _ _ _ _ _ (Item_ToThrift_spec _ _ _ Hp)).
    rewrite (IH its'); [|by apply itemsAt_Some].
    by rewrite <- app_assoc.
Qed.

Lemma History_ToThrift_spec σ v token its :
  historyAt σ v = Some (token, its) →
  History_ToThrift v σ = Returns (thriftHistory token its) σ.
Proof.
  intros Hat. apply historyAt_Some in Hat as (vh & Hv & <- & Hits).
  unfold History_ToThrift.
  rewrite (bind_Returns _ _ _ _ _ (loadHistory_Some _ _ _ Hv)).
  by rewrite (bind_Returns _ _ _ _ _ (History_ToThrift_loop_spec _ _ _ [] Hits)).
Qed.

Lemma NewVersionHistoryFromThrift_loop_spec its :
  ∀ σ acc,
    Forall validItem its →
    NewVersionHistoryFromThrift_loop ((λ i, Some (thriftItem i)) <$> its) acc σ
    = Returns (acc ++ seq (length (itemHeap σ)) (length its))
              (mkStore (itemHeap σ ++ its) (historyHeap σ)).
Proof.
  induction its as [|x its IH]; intros σ acc Hval; simpl.
  - rewrite !app_nil_r. by destruct σ.
  - inversion Hval as [|? ? Hx Hrest]; subst.
    unfold GetEventID, GetVersion. simpl.
    erewrite bind_Returns; [|apply NewVersionHistoryItem_valid; by destruct x].
    rewrite IH by done. simpl. rewrite length_app. simpl.
    rewrite <- !app_assoc. simpl. destruct x. simpl.
    by rewrite Nat.add_1_r.
Qed.

Lemma itemsAt_seq σ its hh :
  itemsAt (mkStore (itemHeap σ ++ its) hh) (seq (length (itemHeap σ)) (length its))
  = Some its.
Proof.
  apply itemsAt_Some. simpl. apply Forall2_lookup. intros k.
  destruct (decide (k < length its)%nat) as [Hk|Hk].
  - rewrite lookup_seq_lt by done.
    destruct (lookup_lt_is_Some_2 its k Hk) as [x Hx]. rewrite Hx.
    constructor. rewrite lookup_app_r by lia.
    by replace (length (itemHeap σ) + k - length (itemHeap σ))%nat with k by lia.
  - rewrite lookup_seq_ge by lia. rewrite lookup_ge_None_2 by lia. constructor.
Qed.

Lemma NewVersionHistoryFromThrift_spec σ token its :
  Forall validItem its → increasing its →
  ∃ σ', NewVersionHistoryFromThrift (Some (thriftHistory token its)) σ
        = Returns (length (historyHeap σ)) σ'
        ∧ freshCopy σ σ' (length (historyHeap σ)) token its.
Proof.
  intros Hval Hinc. unfold NewVersionHistoryFromThrift, thriftHistory. simpl.
  rewrite (bind_Returns _ _ _ _ _ (NewVersionHistoryFromThrift_loop_spec _ σ [] Hval)).
  simpl.
  set (σ1 := mkStore (itemHeap σ ++ its) (historyHeap σ)).
  destruct (NewVersionHistory_spec σ1 token (seq (length (itemHeap σ)) (length its)) its)
    as (σ' & Hrun & Hcopy); [apply itemsAt_seq|done|done|].
  exists σ'. split; [done|].
  destruct Hcopy as (Hext & _ & Hlen & vh & Hq & Htok & Hits & Hown).
  split; [|split; [done|split; [done|]]].
  - eapply extends_trans; [|exact Hext]. exists its, []. by rewrite app_nil_r.
  - exists vh. split; [done|]. split; [done|]. split; [done|].
    eapply Forall_impl; [exact Hown|]. simpl. intros p. rewrite length_app. lia.
Qed.

Lemma isFirstMax_unique lvs c1 c2 : isFirstMax lvs c1 → isFirstMax lvs c2 → c1 = c2.
Proof.
  intros (m1 & H1 & Hmax1 & Hfst1) (m2 & H2 & Hmax2 & Hfst2).
  destruct (Nat.lt_trichotomy c1 c2) as [Hlt|[->|Hlt]]; [|done|].
  - pose proof (Hfst2 _ _ Hlt H1). pose proof (Hmax1 _ _ H2). lia.
  - pose proof (Hfst1 _ _ Hlt H2). pose proof (Hmax2 _ _ H1). lia.
Qed.

Lemma isFirstMax_singleton x : isFirstMax [x] 0.
Proof.
  exists x. split; [done|]. split.
  - intros [|j] y; simpl; [by intros [= ->]|done].
  - intros j y Hj. lia.
Qed.

Lemma isFirstMax_snoc lvs c m x :
  isFirstMax lvs c → lvs !! c = Some m →
  isFirstMax (lvs ++ [x]) (if bool_decide (x > m) then length lvs else c).
Proof.
  intros (m' & Hc & Hmax & Hfst) Hm. assert (m' = m) as -> by congruence.
  case_bool_decide as Hx.
  - exists x. split; [by rewrite lookup_app_r, Nat.sub_diag|]. split.
    + intros j y Hj. apply lookup_app_Some in Hj as [Hj|[_ Hj]].
      * pose proof (Hmax _ _ Hj). lia.
      * apply list_lookup_singleton_Some in Hj as [_ ->]. lia.
    + intros j y Hlt Hj. rewrite lookup_app_l in Hj by done.
      pose proof (Hmax _ _ Hj). lia.
  - exists m. split; [by apply lookup_app_l_Some|]. split.
    + intros j y Hj. apply lookup_app_Some in Hj as [Hj|[_ Hj]].
      * by eapply Hmax.
      * apply list_lookup_singleton_Some in Hj as [_ ->]. lia.
    + intros j y Hlt Hj.
      assert (c < length lvs)%nat by by eapply lookup_lt_Some.
      rewrite lookup_app_l in Hj by lia. by eapply Hfst.
Qed.

Lemma goodView_last g view :
  goodView g view → ∃ l, last view.2 = Some l ∧ lastVersion view.2 = version l.
Proof.
  intros (_ & _ & x & Hx & _). destruct view as [tok its]. simpl in *.
  destruct its as [|a its]; [done|].
  destruct (last (a :: its)) as [l|] eqn:Hl.
  - exists l. split; [done|]. unfold lastVersion. by rewrite Hl.
  - by apply last_None in Hl.
Qed.

Lemma AddVersionHistory_success σ h c tokc itsc v tokv itsv g :
  0 ≤ currentVersionHistoryIndex h →
  histories h !! Z.to_nat (currentVersionHistoryIndex h) = Some c →
  validHistory σ c tokc itsc → goodView g (tokc, itsc) →
  validHistory σ v tokv itsv → goodView g (tokv, itsv) →
  ∃ σ' q,
    AddVersionHistory h (Some v) σ
    = Returns (mkHistories (if bool_decide (lastVersion itsv > lastVersion itsc)
                            then len (histories h)
                            else currentVersionHistoryIndex h)
                           (histories h ++ [q]),
               (bool_decide (lastVersion itsv > lastVersion itsc),
                len (histories h), None)) σ'
    ∧ extends σ σ'
    ∧ validHistory σ' q tokv itsv.
Proof.
  intros Hidx Hc Hvc Hgc Hvv Hgv.
  destruct (goodView_last _ _ Hgc) as (lc & Hlc & Elc).
  destruct (goodView_last _ _ Hgv) as (lv & Hlv & Elv).
  destruct Hgc as (_ & _ & y & Hy & Hyg). destruct Hgv as (_ & _ & x & Hx & Hxg).
  simpl in Hy, Hx, Hlc, Hlv, Elc, Elv.
  pose proof (AddVersionHistory_run _ _ _ _ _ _ _ _ _ Hidx Hc Hvc Hy Hvv) as Hrun.
  rewrite Hx, Hlv, Hlc in Hrun.
  rewrite bool_decide_eq_false_2 in Hrun by (intros ?; lia).
  cbv zeta in Hrun.
  destruct Hrun as (σ' & q & Hrun & Hext & _ & vh & Hq & Htok & Hits & _).
  exists σ', q. rewrite Elv, Elc. split.
  - rewrite Hrun. unfold len. rewrite length_app. simpl.
    by replace (Z.of_nat (length (histories h) + 1) - 1)
      with (Z.of_nat (length (histories h))) by lia.
  - split; [done|]. destruct Hvv as (_ & ? & ?).
    split; [|done]. apply historyAt_Some. eauto.
Qed.

Lemma viewsAt_extends σ σ' hs views :
  extends σ σ' → viewsAt σ hs views → viewsAt σ' hs views.
Proof.
  intros Hext Hv. eapply Forall2_impl; [exact Hv|]. simpl.
  intros q view. by apply extends_validHistory.
Qed.

Lemma Histories_ToThrift_loop_spec σ hs :
  ∀ views acc,
    viewsAt σ hs views →
    Histories_ToThrift_loop hs acc σ
    = Returns (acc ++ ((λ view, Some (thriftHistory view.1 view.2)) <$> views)) σ.
Proof.
  induction hs as [|q hs IH]; intros views acc Hviews;
    inversion Hviews as [|? view ? views' Hq Hrest]; subst; simpl.
  - by rewrite app_nil_r.
  - destruct Hq as (Hat & _). destruct view as [tok its].
    rewrite (bind_Returns _ _ _ _ _ (History_ToThrift_spec _ _ _ _ Hat)).
    rewrite (IH views') by done. by rewrite <- app_assoc.
Qed.

Lemma NewVersionHistoriesFromThrift_loop_spec g rest :
  ∀ σ vhs done c,
    viewsAt σ (histories vhs) done →
    Forall (goodView g) done → Forall (goodView g) rest →
    currentVersionHistoryIndex vhs = Z.of_nat c →
    isFirstMax (lastVersion ∘ snd <$> done) c →
    ∃ σ' hs' c',
      NewVersionHistoriesFromThrift_loop vhs
        ((λ view, Some (thriftHistory view.1 view.2)) <$> rest) σ
      = Returns (mkHistories (Z.of_nat c') hs') σ'
      ∧ extends σ σ'
      ∧ viewsAt σ' hs' (done ++ rest)
      ∧ isFirstMax (lastVersion ∘ snd <$> (done ++ rest)) c'.
Proof.
  induction rest as [|w rest IH]; intros σ vhs done c Hviews Hdone Hrest Hidx Hmax.
  - exists σ, (histories vhs), c. rewrite app_nil_r. simpl.
    split; [|by auto using extends_refl].
    unfold ret. f_equal. destruct vhs. simpl in *. by rewrite Hidx.
  - inversion Hrest as [|? ? Hw Hrest']; subst.
    rewrite fmap_cons. cbn [NewVersionHistoriesFromThrift_loop].
    destruct Hw as (Hwval & Hwinc & Hwhead).
    destruct (NewVersionHistoryFromThrift_spec σ w.1 w.2 Hwval Hwinc)
      as (σa & Hnew & Hcopy).
    rewrite (bind_Returns _ _ _ _ _ Hnew).
    pose proof Hmax as (m & Hm & _).
    rewrite list_lookup_fmap in Hm.
    destruct (done !! c) as [viewc|] eqn:Hviewc; [|done]. simpl in Hm.
    injection Hm as <-.
    destruct (Forall2_lookup_r _ _ _ _ _ Hviews Hviewc) as (qc & Hqc & Hvc).
    assert (goodView g viewc) as Hgc.
    { rewrite Forall_forall in Hdone. apply Hdone.
      apply list_elem_of_lookup. eauto. }
    destruct Hcopy as (Hexta & Hcopy).
    assert (validHistory σa (length (historyHeap σ)) w.1 w.2) as Hva.
    { split; [|done]. eapply freshCopy_historyAt. by split. }
    assert (0 ≤ currentVersionHistoryIndex vhs) as Hidx0 by lia.
    assert (histories vhs !! Z.to_nat (currentVersionHistoryIndex vhs) = Some qc)
      as Hcur by by rewrite Hidx, Nat2Z.id.
    assert (validHistory σa qc viewc.1 viewc.2) as Hvca
      by by eapply extends_validHistory.
    assert (goodView g (viewc.1, viewc.2)) as Hgc' by by destruct viewc.
    assert (goodView g (w.1, w.2)) as Hgw' by by destruct w.
    destruct (AddVersionHistory_success σa vhs qc viewc.1 viewc.2
                (length (historyHeap σ)) w.1 w.2 g Hidx0 Hcur Hvca Hgc' Hva Hgw')
      as (σb & q & Hadd & Hextb & Hvq).
    rewrite (bind_Returns _ _ _ _ _ Hadd).
    set (vhs' := mkHistories _ _).
    assert (length (histories vhs) = length done) as Hlen
      by by eapply Forall2_length.
    destruct (IH σb vhs' (done ++ [w])
                 (if bool_decide (lastVersion w.2 > lastVersion viewc.2)
                  then length done else c))
      as (σ' & hs' & c' & Hloop & Hext' & Hviews' & Hmax').
    + simpl. apply Forall2_app; [|constructor; [done|constructor]].
      eapply viewsAt_extends; [|exact Hviews]. by eapply extends_trans.
    + apply Forall_app. split; [done|]. constructor; [by destruct w|constructor].
    + done.
    + simpl. unfold len. rewrite Hlen, Hidx. by case_bool_decide.
    + rewrite fmap_app. simpl.
      replace (length done) with (length (lastVersion ∘ snd <$> done))
        by by rewrite length_fmap.
      apply isFirstMax_snoc; [done|].
      by rewrite list_lookup_fmap, Hviewc.
    + exists σ', hs', c'. rewrite <- app_assoc in Hviews', Hmax'.
      split; [done|]. split; [|done].
      eauto using extends_trans.
Qed.

Lemma int32_small (x : Z) : 0 ≤ x < 2 ^ 31 → int32 x = x.
Proof.
  intros Hx. unfold int32.
  rewrite Z.mod_small by lia. lia.
Qed.

Lemma NewVersionHistoriesFromThrift_run σ g idx views :
  views ≠ [] → Forall (goodView g) views → 0 ≤ idx < 2 ^ 31 →
  ∃ σ' hs' c',
    extends σ σ'
    ∧ viewsAt σ' hs' views
    ∧ isFirstMax (lastVersion ∘ snd <$> views) c'
    ∧ NewVersionHistoriesFromThrift (Some (thriftHistories idx views)) σ
      = if bool_decide (idx ≠ Z.of_nat c')
        then Panics "unable to initialize version histories: current index mismatch"
        else Returns (mkHistories (Z.of_nat c') hs') σ'.
Proof.
  intros Hne Hgood Hidx. destruct views as [|w views]; [done|].
  inversion Hgood as [|? ? Hw Hrest]; subst.
  unfold NewVersionHistoriesFromThrift, thriftHistories.
  cbn [Histories GetCurrentVersionHistoryIndex CurrentVersionHistoryIndex default].
  rewrite int32_small by done. rewrite fmap_cons.
  rewrite bool_decide_eq_false_2 by (unfold len; simpl; lia).
  unfold index at 1. cbn [decide_rel]. simpl (_ !! _). 
  destruct (decide (0 ≤ 0)) as [_|]; [|lia]. simpl (_ !! _).
  unfold bind at 1. unfold ret at 1.
  destruct Hw as (Hwval & Hwinc & Hwhead).
  destruct (NewVersionHistoryFromThrift_spec σ w.1 w.2 Hwval Hwinc)
    as (σa & Hnew & Hexta & Hcopy).
  rewrite (bind_Returns _ _ _ _ _ Hnew).
  unfold NewVersionHistories. unfold bind at 1. unfold ret at 1.
  cbn [drop].
  destruct (NewVersionHistoriesFromThrift_loop_spec g views σa
              (mkHistories 0 [length (historyHeap σ)]) [w] 0%nat)
    as (σ' & hs' & c' & Hloop & Hext' & Hviews' & Hmax'); try done.
  { constructor; [|constructor]. split; [|done].
    eapply freshCopy_historyAt. by split. }
  { constructor; [|constructor]. by split. }
  { apply isFirstMax_singleton. }
  exists σ', hs', c'. split; [by eapply extends_trans|]. split; [done|].
  split; [done|].
  rewrite (bind_Returns _ _ _ _ _ Hloop).
  unfold shared.GetCurrentVersionHistoryIndex. simpl. by case_bool_decide.
Qed.

(** C5, as the code has it: a valid version history converted to the
    wire form and back is a new history with the same branch token and
    the same items.  A valid collection of histories whose current
    index fits the wire's 32 bits comes back with the same current
    index and, branch by branch, the same tokens and items when its
    current branch is the first one with the greatest last-item
    version; when the current branch is any other one, decoding
    panics with "current index mismatch". *)
Theorem thrift_roundtrip :
  (∀ σ v token its,
      validHistory σ v token its →
      ∃ σ' q,
        (let* w := History_ToThrift v in NewVersionHistoryFromThrift (Some w)) σ
        = Returns q σ'
        ∧ extends σ σ'
        ∧ historyAt σ' q = Some (token, its)
        ∧ historyAt σ' v = Some (token, its))
  ∧ (∀ σ h g views,
      viewsAt σ (histories h) views → views ≠ [] → Forall (goodView g) views →
      0 ≤ currentVersionHistoryIndex h < 2 ^ 31 →
      (isFirstMax (lastVersion ∘ snd <$> views)
                  (Z.to_nat (currentVersionHistoryIndex h)) →
       ∃ σ' h',
         (let* w := Histories_ToThrift h in NewVersionHistoriesFromThrift (Some w)) σ
         = Returns h' σ'
         ∧ extends σ σ'
         ∧ currentVersionHistoryIndex h' = currentVersionHistoryIndex h
         ∧ Forall2 (λ q view, historyAt σ' q = Some view) (histories h') views
         ∧ Forall2 (λ q view, historyAt σ' q = Some view) (histories h) views)
      ∧ (¬ isFirstMax (lastVersion ∘ snd <$> views)
                      (Z.to_nat (currentVersionHistoryIndex h)) →
         (let* w := Histories_ToThrift h in NewVersionHistoriesFromThrift (Some w)) σ
         = Panics "unable to initialize version histories: current index mismatch")).
Proof.
  split.
  - intros σ v token its Hv. pose proof Hv as (Hat & Hval & Hinc).
    rewrite (bind_Returns _ _ _ _ _ (History_ToThrift_spec _ _ _ _ Hat)).
    destruct (NewVersionHistoryFromThrift_spec σ token its Hval Hinc)
      as (σ' & Hrun & Hcopy).
    exists σ', (length (historyHeap σ)). split; [done|].
    pose proof Hcopy as (Hext & _). split; [done|].
    split; [by eapply freshCopy_historyAt | by eapply extends_historyAt].
  - intros σ h g views Hviews Hne Hgood Hidx.
    assert (Histories_ToThrift h σ
            = Returns (thriftHistories (currentVersionHistoryIndex h) views) σ) as Hto.
    { unfold Histories_ToThrift.
      by rewrite (bind_Returns _ _ _ _ _ (Histories_ToThrift_loop_spec _ _ _ [] Hviews)). }
    rewrite (bind_Returns _ _ _ _ _ Hto).
    destruct (NewVersionHistoriesFromThrift_run σ g (currentVersionHistoryIndex h)
                views Hne Hgood Hidx)
      as (σ' & hs' & c' & Hext & Hviews' & Hmax & Hrun).
    rewrite Hrun. split.
    + intros Hcur. pose proof (isFirstMax_unique _ _ _ Hmax Hcur) as ->.
      rewrite bool_decide_eq_false_2 by lia.
      exists σ', (mkHistories (Z.of_nat (Z.to_nat (currentVersionHistoryIndex h))) hs').
      split; [done|]. split; [done|]. split; [simpl; lia|]. split.
      * eapply Forall2_impl; [exact Hviews'|]. simpl.
        intros q [tok its] (Hat & _). done.
      * eapply Forall2_impl; [exact Hviews|]. simpl.
        intros q [tok its] (Hat & _). by eapply extends_historyAt.
    + intros Hcur. rewrite bool_decide_eq_true_2; [done|].
      intros Heq. apply Hcur. by rewrite Heq, Nat2Z.id.
Qed.













(** C4: with [branchIndex] equal to the number of histories,
    [GetVersionHistory] passes its bounds check and then indexes out
    of range, which is a run-time panic and not a [BadRequestError];
    the sibling [SetCurrentVersionHistoryIndex] rejects that index. *)
Theorem GetVersionHistory_at_length h σ :
  GetVersionHistory h (len (histories h)) σ = Panics indexOutOfRange
  ∧ SetCurrentVersionHistoryIndex h (len (histories h)) σ
    = Returns (h, Some (BadRequestError "invalid current branch index.")) σ.
Proof.
  split.
  - unfold GetVersionHistory.
    rewrite bool_decide_eq_false_2 by (unfold len; lia).
    rewrite bool_decide_eq_false_2 by lia. simpl.
    unfold index, len. destruct (decide _) as [_|]; [|lia].
    rewrite Nat2Z.id. by rewrite lookup_ge_None_2.
  - unfold SetCurrentVersionHistoryIndex.
    rewrite bool_decide_eq_false_2 by (unfold len; lia).
    by rewrite bool_decide_eq_true_2 by lia.
Qed.

Lemma GetVersionHistory_outside h σ branchIndex :
  branchIndex < 0 ∨ branchIndex > len (histories h) →
  GetVersionHistory h branchIndex σ = Returns (Err invalidBranchIndex) σ.
Proof.
  intros Hout. unfold GetVersionHistory.
  destruct Hout.
  - by rewrite bool_decide_eq_true_2 by done.
  - rewrite (bool_decide_eq_true_2 (branchIndex > _)) by done.
    by rewrite orb_true_r.
Qed.

End persistence_facts.

(** * Properties of the queue *)

Section queue_facts.
Import shared sqldb sql.

Lemma attempt_fault {A} (op : Tables → (A + error) * Tables) t e rest :
  attempt op (mkDB t (Some e :: rest)) = (inr e, mkDB t rest).
Proof. done. Qed.

Lemma attempt_cases {A} (op : Tables → (A + error) * Tables) db :
  (∃ e rest, faults db = Some e :: rest ∧ attempt op db = (inr e, mkDB (tables db) rest))
  ∨ (∃ rest, attempt op db = ((op (tables db)).1, mkDB (op (tables db)).2 rest)).
Proof.
  unfold attempt. destruct (faults db) as [|[e|] rest].
  - right. exists []. by destruct (op (tables db)).
  - left. by exists e, rest.
  - right. exists rest. by destruct (op (tables db)).
Qed.

(** What one [UpdateAckLevel] call does to the tables. *)
Lemma UpdateAckLevel_step q messageID clusterName db :
  let '(err, db') := UpdateAckLevel q messageID clusterName db in
  match err with
  | Some e => isInternal e = true ∧ tables db' = tables db
  | None =>
      queue (tables db') = queue (tables db)
      ∧ match queueAckLevels (tables db) !! queueType q with
        | None =>
            queueAckLevels (tables db')
            = <[queueType q := {[clusterName := messageID]}]> (queueAckLevels (tables db))
        | Some m =>
            if bool_decide (default 0 (m !! clusterName) > messageID)
            then tables db' = tables db
            else queueAckLevels (tables db')
                 = <[queueType q := <[clusterName := messageID]> m]>
                     (queueAckLevels (tables db))
        end
  end.
Proof.
  unfold UpdateAckLevel, txExecute, qbind, qret.
  destruct (attempt_cases (λ t, (inl (), t)) db) as [(e & r & _ & ->)|(r & ->)];
    [done|]. cbn [fst snd].
  set (db1 := mkDB (tables db) r).
  unfold sqldb.GetAckLevels.
  destruct (attempt_cases (λ t, (inl (queueAckLevels t !! queueType q), t)) db1)
    as [(e & r2 & _ & ->)|(r2 & ->)]; [done|]. cbn [fst snd tables db1].
  set (db2 := mkDB (tables db) r2).
  destruct (queueAckLevels (tables db) !! queueType q) as [m|] eqn:Hrow.
  - case_bool_decide as Hlate.
    + destruct (attempt_cases (λ t, (inl (), t)) db2) as [(e & r3 & _ & ->)|(r3 & ->)];
        [done|]. by cbn [fst snd tables db2].
    + unfold UpdateAckLevels.
      destruct (attempt_cases
                  (λ t, (inl (), mkTables (queue t)
                           (<[queueType q := <[clusterName := messageID]> m]>
                              (queueAckLevels t)))) db2)
        as [(e & r3 & _ & ->)|(r3 & ->)]; [done|]. cbn [fst snd tables db2].
      match goal with |- context [attempt ?op ?d] =>
        destruct (attempt_cases op d) as [(e & r4 & _ & ->)|(r4 & ->)] end; [done|].
      by cbn [fst snd tables queue queueAckLevels].
  - unfold InsertAckLevel.
    match goal with |- context [attempt ?op db2] =>
      destruct (attempt_cases op db2) as [(e & r3 & _ & ->)|(r3 & ->)] end; [done|].
    cbn [fst snd tables db2]. try rewrite Hrow. cbn [fst snd].
    match goal with |- context [attempt ?op ?d] =>
      destruct (attempt_cases op d) as [(e & r4 & _ & ->)|(r4 & ->)] end; [done|].
    by cbn [fst snd tables queue queueAckLevels].
Qed.

Lemma UpdateAckLevel_ackLevel q messageID clusterName db c x :
  ackLevel db (queueType q) c = Some x →
  ∃ y, ackLevel (UpdateAckLevel q messageID clusterName db).2 (queueType q) c = Some y
       ∧ x ≤ y.
Proof.
  intros Hx. pose proof (UpdateAckLevel_step q messageID clusterName db) as Hstep.
  destruct (UpdateAckLevel q messageID clusterName db) as [[e|] db']; cbn [snd].
  - destruct Hstep as [_ Ht]. exists x. unfold ackLevel in *. by rewrite Ht.
  - destruct Hstep as [_ Hstep]. unfold ackLevel in *.
    destruct (queueAckLevels (tables db) !! queueType q) as [m|] eqn:Hrow; [|done].
    simpl in Hx. case_bool_decide as Hlate.
    + exists x. by rewrite Hstep, Hrow.
    + rewrite Hstep, lookup_insert_eq. simpl.
      destruct (decide (clusterName = c)) as [->|Hne].
      * rewrite lookup_insert_eq. exists messageID. split; [done|].
        rewrite Hx in Hlate. simpl in Hlate. lia.
      * rewrite lookup_insert_ne by done. exists x. split; [done|lia].
Qed.

Lemma attempt_noFaults {A} (op : Tables → (A + error) * Tables) db :
  noFaults db →
  ∃ rest, attempt op db = ((op (tables db)).1, mkDB (op (tables db)).2 rest)
          ∧ noFaults (mkDB (op (tables db)).2 rest).
Proof.
  unfold noFaults, attempt. intros Hok.
  destruct (faults db) as [|[e|] rest] eqn:Hfaults.
  - exists []. by destruct (op (tables db)).
  - by inversion Hok.
  - exists rest. split; [by destruct (op (tables db))|]. by inversion Hok.
Qed.

(** On storage that does not fail, [UpdateAckLevel] succeeds. *)
Lemma UpdateAckLevel_noFaults q messageID clusterName db :
  noFaults db →
  (UpdateAckLevel q messageID clusterName db).1 = None
  ∧ noFaults (UpdateAckLevel q messageID clusterName db).2.
Proof.
  intros Hok. unfold UpdateAckLevel, txExecute, qbind, qret.
  destruct (attempt_noFaults (λ t, (inl (), t)) db Hok) as (r & -> & Hok1).
  cbn [fst snd] in *. unfold sqldb.GetAckLevels.
  match goal with |- context [attempt ?op ?d] =>
    destruct (attempt_noFaults op d Hok1) as (r2 & -> & Hok2) end.
  cbn [fst snd tables] in *.
  destruct (queueAckLevels (tables db) !! queueType q) as [m|] eqn:Hrow.
  - case_bool_decide as Hlate.
    + match goal with |- context [attempt ?op ?d] =>
        destruct (attempt_noFaults op d Hok2) as (r3 & -> & Hok3) end.
      by cbn [fst snd] in *.
    + unfold UpdateAckLevels.
      match goal with |- context [attempt ?op ?d] =>
        destruct (attempt_noFaults op d Hok2) as (r3 & -> & Hok3) end.
      cbn [fst snd tables] in *.
      match goal with |- context [attempt ?op ?d] =>
        destruct (attempt_noFaults op d Hok3) as (r4 & -> & Hok4) end.
      by cbn [fst snd] in *.
  - unfold InsertAckLevel.
    match goal with |- context [attempt ?op ?d] =>
      destruct (attempt_noFaults op d Hok2) as (r3 & Hrun & Hok3) end.
    cbn [fst snd tables] in *. rewrite Hrow in Hrun, Hok3. rewrite Hrun.
    cbn [fst snd] in *.
    match goal with |- context [attempt ?op ?d] =>
      destruct (attempt_noFaults op d Hok3) as (r4 & -> & Hok4) end.
    by cbn [fst snd] in *.
Qed.

(** On storage that does not fail, one call raises the level of its
    cluster to [messageID] when this is not below it, and leaves the
    levels of the other clusters alone. *)
Lemma UpdateAckLevel_ackLevel_max q messageID clusterName db c x :
  noFaults db →
  ackLevel db (queueType q) c = Some x →
  ackLevel (UpdateAckLevel q messageID clusterName db).2 (queueType q) c
  = Some (if decide (clusterName = c) then Z.max x messageID else x).
Proof.
  intros Hok Hx. pose proof (UpdateAckLevel_step q messageID clusterName db) as Hstep.
  destruct (UpdateAckLevel_noFaults q messageID clusterName db Hok) as [Herr _].
  destruct (UpdateAckLevel q messageID clusterName db) as [err db'].
  cbn [fst snd] in *. subst err. destruct Hstep as [_ Hstep]. unfold ackLevel in *.
  destruct (queueAckLevels (tables db) !! queueType q) as [m|] eqn:Hrow; [|done].
  simpl in Hx. case_bool_decide as Hlate.
  - rewrite Hstep, Hrow. simpl. rewrite Hx. f_equal.
    case_decide as Hc; [|done]. subst c. rewrite Hx in Hlate. simpl in Hlate. lia.
  - rewrite Hstep, lookup_insert_eq. simpl. case_decide as Hc.
    + subst c. rewrite lookup_insert_eq. f_equal.
      rewrite Hx in Hlate. simpl in Hlate. lia.
    + by rewrite lookup_insert_ne.
Qed.

(** C7: one [UpdateAckLevel] call either fails with an Internal error
    and leaves the tables as they were, or succeeds and then: with no
    ack-level map stored, stores the map [{clusterName: messageID}];
    with a stored map whose entry for the cluster (0 when missing, as
    a Go map reads) is above [messageID], writes nothing; and
    otherwise stores the map with the cluster's entry set to
    [messageID].  Over any sequence of calls on one queue, a
    cluster's persisted ack level never decreases.  On storage that
    does not fail every call succeeds, so that one of the three cases
    applies, and after a sequence of calls a cluster's level is the
    greatest of its level before and of the message IDs acknowledged
    for it. *)
Theorem UpdateAckLevel_monotone q :
  (∀ messageID clusterName db,
      let '(err, db') := UpdateAckLevel q messageID clusterName db in
      match err with
      | Some e => isInternal e = true ∧ tables db' = tables db
      | None =>
          queue (tables db') = queue (tables db)
          ∧ match queueAckLevels (tables db) !! queueType q with
            | None =>
                queueAckLevels (tables db')
                = <[queueType q := {[clusterName := messageID]}]>
                    (queueAckLevels (tables db))
            | Some m =>
                if bool_decide (default 0 (m !! clusterName) > messageID)
                then tables db' = tables db
                else queueAckLevels (tables db')
                     = <[queueType q := <[clusterName := messageID]> m]>
                         (queueAckLevels (tables db))
            end
      end)
  ∧ (∀ calls db c x,
       ackLevel db (queueType q) c = Some x →
       ∃ y, ackLevel (runUpdateAckLevels q calls db) (queueType q) c = Some y ∧ x ≤ y)
  ∧ (∀ messageID clusterName db,
       noFaults db →
       (UpdateAckLevel q messageID clusterName db).1 = None
       ∧ noFaults (UpdateAckLevel q messageID clusterName db).2)
  ∧ (∀ calls db c x,
       noFaults db →
       ackLevel db (queueType q) c = Some x →
       ackLevel (runUpdateAckLevels q calls db) (queueType q) c
       = Some (foldl Z.max x (ackedFor c calls))).
Proof.
  split; [apply UpdateAckLevel_step|]. split; [|split].
  - induction calls as [|[m cn] calls IH]; intros db c x Hx; simpl.
    + exists x. split; [done|lia].
    + destruct (UpdateAckLevel_ackLevel q m cn db c x Hx) as (y & Hy & Hxy).
      destruct (IH _ c y Hy) as (z & Hz & Hyz). exists z. split; [done|lia].
  - apply UpdateAckLevel_noFaults.
  - induction calls as [|[m cn] calls IH]; intros db c x Hok Hx; [done|].
    cbn [runUpdateAckLevels foldl fst snd].
    pose proof (UpdateAckLevel_ackLevel_max q m cn db c x Hok Hx) as Hmax.
    destruct (UpdateAckLevel_noFaults q m cn db Hok) as [_ Hok'].
    fold (runUpdateAckLevels q calls (UpdateAckLevel q m cn db).2).
    rewrite (IH _ c _ Hok' Hmax). f_equal. unfold ackedFor.
    rewrite filter_cons. cbn [snd]. by case_decide.
Qed.

(** Errors of [EnqueueMessage] and [DeleteMessagesBefore] are of the
    Internal kind. *)
Lemma EnqueueMessage_Internal q payload db e :
  (EnqueueMessage q payload db).1 = Some e → isInternal e = true.
Proof.
  unfold EnqueueMessage, qbind, qret.
  destruct (txExecute _ _ db) as [[err|] db']; simpl; [|done]. by intros [= <-].
Qed.

Lemma DeleteMessagesBefore_Internal q messageID db e :
  (sql.DeleteMessagesBefore q messageID db).1 = Some e → isInternal e = true.
Proof.
  unfold sql.DeleteMessagesBefore, qbind, qret.
  destruct (sqldb.DeleteMessagesBefore _ _ db) as [[?|err] db']; simpl; [done|].
  by intros [= <-].
Qed.

(** C9: when the storage fails with an error [e] under [ReadMessages]
    or under [GetAckLevels], the caller receives [e] itself, not an
    Internal error wrapping it. *)
Theorem ReadMessages_raw_error q lastMessageID maxCount t e rest :
  ReadMessages q lastMessageID maxCount (mkDB t (Some e :: rest))
  = (inr e, mkDB t rest)
  ∧ sql.GetAckLevels q (mkDB t (Some e :: rest)) = (inr e, mkDB t rest).
Proof. done. Qed.

End queue_facts.

(** * Properties of the resetter *)

Section resetter_facts.
Import common shared history.
Context {W H : Type} {collab : Collaborators W H} {consts : Constants}.

Abbreviation State := (State (W := W) (H := H)).

Lemma grows_refl (s : State) : grows s s.
Proof. exists []. by rewrite app_nil_r. Qed.

Lemma grows_trans (s1 s2 s3 : State) : grows s1 s2 → grows s2 s3 → grows s1 s3.
Proof. intros [m1 H1] [m2 H2]. exists (m1 ++ m2). by rewrite H2, H1, app_assoc. Qed.

Lemma invoke_log h c (s : State) :
  log (invoke h c s).2 = log s ++ [(h, c)].
Proof. unfold invoke. by destruct (exec h c (world s)). Qed.

Lemma invoke_grows h c (s : State) : grows s (invoke h c s).2.
Proof. exists [(h, c)]. apply invoke_log. Qed.

Lemma external_log {A} (f : W → A * W) (s : State) : log (external f s).2 = log s.
Proof. unfold external. by destruct (f (world s)). Qed.



Lemma failInflightActivity_loop_grows h reason ais :
  ∀ s : State, grows s (failInflightActivity_loop h reason ais s).2.
Proof.
  induction ais as [|ai ais IH]; intros s; simpl; [apply grows_refl|].
  repeat case_bool_decide; [apply IH|apply grows_refl|].
  unfold rbind. pose proof (invoke_grows h (AddActivityTaskFailedEvent
    (ActivityInfo.ScheduleID ai) (ActivityInfo.StartedID ai)
    (RespondActivityTaskFailedRequest.mk (Some reason) (ActivityInfo.Details ai)
       (Some (ActivityInfo.StartedIdentity ai)))) s) as Hg.
  destruct (invoke h _ s) as [[e|] s2]; [done|].
  eapply grows_trans; [exact Hg|apply IH].
Qed.

Lemma failInflightActivity_grows h reason (s : State) :
  grows s (failInflightActivity h reason s).2.
Proof. unfold failInflightActivity, rbind, query. apply failInflightActivity_loop_grows. Qed.

Lemma reapplyEvents_grows h events :
  ∀ s : State, grows s (reapplyEvents h events s).2.
Proof.
  induction events as [|event events IH]; intros s; simpl; [apply grows_refl|].
  destruct (HistoryEvent.EventType' event); try apply IH.
  unfold rbind.
  match goal with |- context [invoke h ?c s] =>
    pose proof (invoke_grows h c s) as Hg; destruct (invoke h c s) as [[e|] s2] end;
    [done|].
  eapply grows_trans; [exact Hg|apply IH].
Qed.

Lemma reapplyWorkflowEvents_loop_grows h batches :
  ∀ lastEvents (s : State),
    grows s (reapplyWorkflowEvents_loop h batches lastEvents s).2.
Proof.
  induction batches as [|[batch|err] batches IH]; intros lastEvents s; simpl;
    try apply grows_refl.
  unfold rbind. pose proof (reapplyEvents_grows h batch s) as Hg.
  destruct (reapplyEvents h batch s) as [[e|] s2]; [done|].
  eapply grows_trans; [exact Hg|apply IH].
Qed.

Lemma external_grows {A} (f : W → A * W) (s : State) : grows s (external f s).2.
Proof. exists []. by rewrite external_log, app_nil_r. Qed.

Lemma reapplyWorkflowEvents_grows h firstEventID nextEventID branchToken (s : State) :
  grows s (reapplyWorkflowEvents h firstEventID nextEventID branchToken s).2.
Proof.
  unfold reapplyWorkflowEvents, rbind.
  pose proof (external_grows (historyBatches firstEventID nextEventID branchToken) s) as Hg1.
  destruct (external _ s) as [iter s1].
  pose proof (reapplyWorkflowEvents_loop_grows h iter [] s1) as Hg2.
  destruct (reapplyWorkflowEvents_loop h iter [] s1) as [[lastEvents|err] s2];
    cbn [snd] in *.
  - assert (grows s s2) by by eapply grows_trans.
    destruct (last lastEvents) as [lastEvent|]; [|done].
    by destruct (HistoryEvent.EventType' lastEvent).
  - by eapply grows_trans.
Qed.

Lemma getNextEventIDBranchToken_grows domainID workflowID runID (s : State) :
  grows s (getNextEventIDBranchToken domainID workflowID runID s).2.
Proof.
  unfold getNextEventIDBranchToken, rbind, query.
  pose proof (external_grows (loadNDCWorkflow domainID workflowID runID) s) as Hg1.
  destruct (external _ s) as [[workflow|err] s1]; [|done]. cbn [snd] in *.
  destruct (GetCurrentBranchToken workflow (world s1)) as [token|err].
  - pose proof (external_grows (λ w, ((), releaseFn workflow None w)) s1) as Hg2.
    destruct (external _ s1) as [u s2]. by eapply grows_trans.
  - pose proof (external_grows (λ w, ((), releaseFn workflow (Some err) w)) s1) as Hg2.
    destruct (external _ s1) as [u s2]. by eapply grows_trans.
Qed.

Lemma reapplyContinueAsNewWorkflowEvents_loop_grows h domainID workflowID fuel :
  ∀ nextRunID (s : State),
    grows s (reapplyContinueAsNewWorkflowEvents_loop fuel h domainID workflowID
               nextRunID s).2.
Proof.
  induction fuel as [|fuel IH]; intros nextRunID s;
    cbn [reapplyContinueAsNewWorkflowEvents_loop];
    case_bool_decide; try apply grows_refl.
  unfold rbind.
  pose proof (getNextEventIDBranchToken_grows domainID workflowID nextRunID s) as Hg1.
  destruct (getNextEventIDBranchToken domainID workflowID nextRunID s)
    as [[[next token]|err] s1]; [|done]. cbn [snd] in *.
  pose proof (reapplyWorkflowEvents_grows h FirstEventID next token s1) as Hg2.
  destruct (reapplyWorkflowEvents h FirstEventID next token s1) as [[run|err] s2];
    cbn [snd] in *; [|by eapply grows_trans].
  eapply grows_trans; [|apply IH]. by eapply grows_trans.
Qed.

Lemma reapplyContinueAsNewWorkflowEvents_grows fuel h domainID workflowID baseRunID
    baseBranchToken first next (s : State) :
  grows s (reapplyContinueAsNewWorkflowEvents fuel h domainID workflowID baseRunID
             baseBranchToken first next s).2.
Proof.
  unfold reapplyContinueAsNewWorkflowEvents, rbind.
  pose proof (reapplyWorkflowEvents_grows h first next baseBranchToken s) as Hg1.
  destruct (reapplyWorkflowEvents h first next baseBranchToken s) as [[run|err] s1];
    cbn [snd] in *; [|done].
  eapply grows_trans; [exact Hg1|].
  apply reapplyContinueAsNewWorkflowEvents_loop_grows.
Qed.

(** C3: in [prepareResetWorkflow], once the branch is forked, the
    state rebuilt, the version checked and updated (state [s3]), the
    reset calls [AddDecisionTaskFailedEvent] (with cause
    ResetWorkflow, on the in-flight decision) if and only if the
    rebuilt state has an in-flight decision whose started ID plus one
    is its next event ID; otherwise it returns the [BadRequestError]
    "Can only reset workflow to DecisionTaskStarted: ..." having made
    no further call on the mutable state. *)
Theorem prepareResetWorkflow_decision_gate fuel
    domainID workflowID baseRunID baseBranchToken
    baseRebuildLastEventID baseRebuildLastEventVersion baseNextEventID
    resetRunID resetRequestID resetWorkflowVersion terminateReason resetReason
    additionalReapplyEvents (s0 s1 s2 s3 : State) resetBranchToken h size :
  generateBranchToken domainID workflowID baseBranchToken
    (int64_add baseRebuildLastEventID 1) resetRunID s0 = (inl resetBranchToken, s1) →
  external (rebuild (WorkflowIdentifier.mk domainID workflowID baseRunID)
              baseBranchToken baseRebuildLastEventID baseRebuildLastEventVersion
              (WorkflowIdentifier.mk domainID workflowID resetRunID)
              resetBranchToken resetRequestID) s1 = (inl (h, size), s2) →
  ¬ GetCurrentVersion h (world s2) > resetWorkflowVersion →
  invoke h (UpdateCurrentVersion resetWorkflowVersion false) s2 = (None, s3) →
  let '(r, s') :=
    prepareResetWorkflow fuel domainID workflowID baseRunID baseBranchToken
      baseRebuildLastEventID baseRebuildLastEventVersion baseNextEventID
      resetRunID resetRequestID resetWorkflowVersion terminateReason resetReason
      additionalReapplyEvents s0 in
  ∃ more,
    log s' = log s3 ++ more
    ∧ (atDecisionTaskStarted h (world s3) ↔ Exists isDecisionTaskFailed more)
    ∧ (¬ atDecisionTaskStarted h (world s3) →
       r = Failed (canOnlyReset baseRebuildLastEventID) ∧ s' = s3)
    ∧ (atDecisionTaskStarted h (world s3) →
       ∃ d rest,
         GetInFlightDecision h (world s3) = Some d
         ∧ more = (h, AddDecisionTaskFailedEvent
                        (DecisionInfo.ScheduleID d) (DecisionInfo.StartedID d)
                        DecisionTaskFailedCauseResetWorkflow [] identityHistoryService
                        resetReason baseRunID resetRunID
                        (GetCurrentVersion h (world s2))) :: rest).
Proof.
  intros Hfork Hrebuild Hversion Hupdate.
  unfold prepareResetWorkflow. unfold rbind at 1. rewrite Hfork.
  unfold rbind at 1. rewrite Hrebuild.
  unfold rbind at 1. unfold query at 1. cbn [fst snd].
  rewrite bool_decide_eq_false_2 by done.
  unfold rbind at 1. rewrite Hupdate.
  unfold rbind at 1. unfold query at 1.
  destruct (GetInFlightDecision h (world s3)) as [d|] eqn:Hd.
  2:{ exists []. rewrite app_nil_r. split; [done|].
      assert (¬ atDecisionTaskStarted h (world s3)) as Hno.
      { intros (d & Hd' & _). congruence. }
      split; [split; [done|by intros ?%Exists_nil]|]. split; [done|done]. }
  unfold rbind at 1. unfold query at 1.
  case_bool_decide as Hnext.
  { exists []. rewrite app_nil_r. split; [done|].
    assert (¬ atDecisionTaskStarted h (world s3)) as Hno.
    { intros (d' & Hd' & Heq). congruence. }
    split; [split; [done|by intros ?%Exists_nil]|]. split; [done|done]. }
  assert (atDecisionTaskStarted h (world s3)) as Hyes.
  { exists d. split; [done|]. by destruct (decide (int64_add (DecisionInfo.StartedID d) 1
                                            = GetNextEventID h (world s3))). }
  set (c := AddDecisionTaskFailedEvent (DecisionInfo.ScheduleID d) _ _ _ _ _ _ _ _).
  assert (∀ (r : prepared (H := H)) (s' : State),
            grows (invoke h c s3).2 s' →
            let '(r, s') := (r, s') in
            ∃ more, log s' = log s3 ++ more
              ∧ (atDecisionTaskStarted h (world s3) ↔ Exists isDecisionTaskFailed more)
              ∧ (¬ atDecisionTaskStarted h (world s3) →
                 r = Failed (canOnlyReset baseRebuildLastEventID) ∧ s' = s3)
              ∧ (atDecisionTaskStarted h (world s3) →
                 ∃ d0 rest,
                   Some d = Some d0
                   ∧ more = (h, AddDecisionTaskFailedEvent
                                  (DecisionInfo.ScheduleID d0) (DecisionInfo.StartedID d0)
                                  DecisionTaskFailedCauseResetWorkflow []
                                  identityHistoryService
                                  resetReason baseRunID resetRunID
                                  (GetCurrentVersion h (world s2))) :: rest)) as Hdone.
  { intros r s' [more Hmore]. rewrite invoke_log in Hmore.
    exists ((h, c) :: more). split; [by rewrite Hmore, <- app_assoc|].
    split; [split; [intros _; by apply Exists_cons_hd|done]|].
    split; [done|]. intros _. subst c. by exists d, more. }
  unfold rbind at 1.
  destruct (invoke h c s3) as [[err|] s4] eqn:Hinvoke; cbn [snd] in Hdone.
  { apply (Hdone (Failed err) s4), grows_refl. }
  unfold rbind at 1.
  pose proof (failInflightActivity_grows h terminateReason s4) as Hg5.
  destruct (failInflightActivity h terminateReason s4) as [[err|] s5]; cbn [snd] in Hg5.
  { by apply (Hdone (Failed err) s5). }
  unfold rbind at 1.
  match goal with |- context [reapplyContinueAsNewWorkflowEvents ?a ?b ?c ?d ?e ?f ?g ?i s5] =>
    pose proof (reapplyContinueAsNewWorkflowEvents_grows a b c d e f g i s5) as Hg6;
    destruct (reapplyContinueAsNewWorkflowEvents a b c d e f g i s5) as [[[err|]|] s6]
  end; cbn [snd] in Hg6.
  1: apply (Hdone (Failed err) s6); by eapply grows_trans.
  2: apply (Hdone Unfinished s6); by eapply grows_trans.
  unfold rbind at 1.
  pose proof (reapplyEvents_grows h additionalReapplyEvents s6) as Hg7.
  destruct (reapplyEvents h additionalReapplyEvents s6) as [[err|] s7]; cbn [snd] in Hg7.
  { apply (Hdone (Failed err) s7). eauto using grows_trans. }
  unfold rbind at 1.
  pose proof (invoke_grows h scheduleDecision s7) as Hg8.
  destruct (invoke h scheduleDecision s7) as [[err|] s8]; cbn [snd] in Hg8.
  - apply (Hdone (Failed err) s8). eauto using grows_trans.
  - apply (Hdone (Prepared size h) s8). eauto using grows_trans.
Qed.

End resetter_facts.

(** * The claims on sample data *)

Section persistence_samples.
Import common shared persistence samples.
Local Open Scope go_scope.

Local Ltac valid_history :=
  split; [reflexivity|]; split; repeat constructor; simpl; lia.

Lemma AddOrUpdateItem_cases_witness :
  AddOrUpdateItem (consts := constants) 0 1 σ_update
  = Returns None (mkStore [mkItem 6 0; mkItem 6 0] [mkHistory [] [0%nat]]).
Proof.
  assert (validItem (consts := constants) (mkItem 6 0)) as Hval
    by (split; simpl; [lia | left; lia]).
  assert (∀ p : loc, p ∈ [0%nat] → is_Some (itemHeap σ_update !! p)) as Hall.
  { intros p Hp. apply list_elem_of_singleton in Hp as ->. by eexists. }
  destruct (AddOrUpdateItem_cases (consts := constants) σ_update 0 1
              (mkHistory [] [0%nat]) (mkItem 6 0) eq_refl eq_refl Hval Hall)
    as [(l & Hl & _ & _ & Hraise) _].
  injection Hl as <-. apply Hraise. simpl. lia.
Defined.



Lemma thrift_roundtrip_witness :
  (∃ σ' q,
      (let* w := History_ToThrift 1 in
       NewVersionHistoryFromThrift (consts := constants) (Some w)) σ_rebuilt
      = Returns q σ'
      ∧ extends σ_rebuilt σ'
      ∧ historyAt σ' q = Some (["c"%byte], [mkItem 3 0; mkItem 5 1])
      ∧ historyAt σ' 1%nat = Some (["c"%byte], [mkItem 3 0; mkItem 5 1]))
  ∧ (∃ σ' h',
      (let* w := Histories_ToThrift h_current in
       NewVersionHistoriesFromThrift (consts := constants) (Some w)) σ_rebuilt
      = Returns h' σ'
      ∧ extends σ_rebuilt σ'
      ∧ currentVersionHistoryIndex h' = 1).
Proof.
  destruct (thrift_roundtrip (consts := constants)) as [Hone Hall]. split.
  { apply Hone. valid_history. }
  set (views := [(["b"%byte], [mkItem 3 0]); (["c"%byte], [mkItem 3 0; mkItem 5 1])]).
  assert (viewsAt (consts := constants) σ_rebuilt (histories h_current) views) as Hviews
    by (constructor; [valid_history|]; constructor; [valid_history|]; constructor).
  assert (views ≠ []) as Hne by done.
  assert (Forall (goodView (consts := constants) 0) views) as Hgood
    by (repeat constructor; simpl; try lia; by eexists).
  assert (0 ≤ currentVersionHistoryIndex h_current < 2 ^ 31) as Hidx
    by (cbn [h_current currentVersionHistoryIndex]; lia).
  assert (isFirstMax (lastVersion ∘ snd <$> views)
                     (Z.to_nat (currentVersionHistoryIndex h_current))) as Hmax.
  { exists 1. split; [done|]. split.
    - intros [|[|j]] x; unfold views, lastVersion; simpl; intros [= <-]; lia.
    - intros j x Hj. simpl in Hj. destruct j as [|[|j]]; [|lia|lia].
      unfold views, lastVersion; simpl; intros [= <-]; lia. }
  destruct (proj1 (Hall σ_rebuilt h_current 0 views Hviews Hne Hgood Hidx) Hmax)
    as (σ' & h' & Hrun & Hext & Hcur & _).
  exists σ', h'. split; [exact Hrun|]. split; [exact Hext|exact Hcur].
Defined.

Lemma thrift_roundtrip_rebuilt_panics :
  viewsAt (consts := constants) σ_rebuilt (histories h_rebuilt)
    [(["b"%byte], [mkItem 3 0]); (["c"%byte], [mkItem 3 0; mkItem 5 1])]
  ∧ 0 ≤ currentVersionHistoryIndex h_rebuilt < len (histories h_rebuilt)
  ∧ IsRebuilt (consts := constants) h_rebuilt σ_rebuilt
    = Returns (true, None)
              (mkStore (itemHeap σ_rebuilt ++ [mkItem 3 0; mkItem 3 0; mkItem 5 1])
                       (historyHeap σ_rebuilt))
  ∧ (let* w := Histories_ToThrift h_rebuilt in
     NewVersionHistoriesFromThrift (consts := constants) (Some w)) σ_rebuilt
    = Panics "unable to initialize version histories: current index mismatch".
Proof.
  split; [constructor; [valid_history|]; constructor; [valid_history|]; constructor|].
  split; [by vm_compute|].
  split; by vm_compute.
Qed.

Lemma AddVersionHistory_cases_witness :
  AddVersionHistory (consts := constants) h_genesis None σ_genesis
  = Returns (h_genesis, (false, 0, Some (BadRequestError "version histories is null.")))
            σ_genesis
  ∧ ∃ σ' q,
      AddVersionHistory (consts := constants) h_genesis (Some 1%nat) σ_genesis
      = Returns (mkHistories 1 [0%nat; q], (true, 1, None)) σ'
      ∧ extends σ_genesis σ'
      ∧ q = 2%nat.
Proof.
  destruct (AddVersionHistory_cases (consts := constants) σ_genesis h_genesis 0%nat
              ["x"%byte] [mkItem 5 0] (mkItem 5 0)) as [Hnil Hadd];
    [done|done|valid_history|done|].
  split; [exact Hnil|].
  assert (validHistory (consts := constants) σ_genesis 1 ["y"%byte]
            [mkItem 3 0; mkItem 4 1]) as Hv by valid_history.
  destruct (Hadd _ _ _ Hv) as (σ' & q & Hrun & Hext & Hq & _).
  exists σ', q. split; [exact Hrun|]. split; [exact Hext|exact Hq].
Defined.

Lemma AddVersionHistory_first_item_differs :
  validHistory (consts := constants) σ_genesis 0 ["x"%byte] [mkItem 5 0]
  ∧ validHistory (consts := constants) σ_genesis 1 ["y"%byte] [mkItem 3 0; mkItem 4 1]
  ∧ mkItem 3 0 ≠ mkItem 5 0
  ∧ ∃ σ', AddVersionHistory (consts := constants) h_genesis (Some 1%nat) σ_genesis
          = Returns (mkHistories 1 [0%nat; 2%nat], (true, 1, None)) σ'.
Proof.
  split; [valid_history|]. split; [valid_history|]. split; [done|].
  eexists. vm_compute. reflexivity.
Qed.

Lemma DuplicateUntilLCAItem_empty_token_witness :
  ∃ σ', DuplicateUntilLCAItem (consts := constants) 1 2 σ_rebuilt = Returns (Ok 2%nat) σ'
        ∧ GetBranchToken 2 σ' = Returns [] σ'
        ∧ GetBranchToken 1 σ' = Returns ["c"%byte] σ'.
Proof.
  assert (∃ σ', DuplicateUntilLCAItem (consts := constants) 1 2 σ_rebuilt
                = Returns (Ok 2%nat) σ') as [σ' Hrun]
    by (eexists; vm_compute; reflexivity).
  exists σ'. split; [done|].
  destruct (DuplicateUntilLCAItem_empty_token (consts := constants) _ _ _ _ _ Hrun)
    as (_ & Htoken & Hsame & _).
  split; [done|].
  destruct (Hsame (mkHistory ["c"%byte] [1%nat; 2%nat]) [mkItem 3 0; mkItem 5 1])
    as [Hv _]; [done|done|].
  unfold GetBranchToken.
  by rewrite (bind_Returns _ _ _ _ _ (loadHistory_Some _ _ _ Hv)).
Defined.

End persistence_samples.

Section queue_and_resetter_samples.
Import common shared sqldb sql history samples samples_engine.

Lemma UpdateAckLevel_monotone_witness :
  (UpdateAckLevel queue0 3 "a" db_acked).1 = None
  ∧ (UpdateAckLevel queue0 7 "a" db_acked).1 = None
  ∧ ackLevel (runUpdateAckLevels queue0 [(3, "a")] db_acked) 0 "a" = Some 5
  ∧ ackLevel (runUpdateAckLevels queue0 [(3, "a"); (7, "a")] db_acked) 0 "a" = Some 7.
Proof.
  destruct (UpdateAckLevel_monotone queue0) as (_ & _ & Hsucceeds & Hlevel).
  assert (noFaults db_acked) as Hok by constructor.
  split; [exact (proj1 (Hsucceeds 3 "a" db_acked Hok))|].
  split; [exact (proj1 (Hsucceeds 7 "a" db_acked Hok))|].
  split.
  - exact (Hlevel [(3, "a")] db_acked "a" 5 Hok eq_refl).
  - exact (Hlevel [(3, "a"); (7, "a")] db_acked "a" 5 Hok eq_refl).
Defined.


Lemma prepareResetWorkflow_decision_gate_witness :
  ∃ more,
    log (prepareResetWorkflow (collab := collaborators) (consts := constants)
           1 "domain" "workflow" "base" [] 10 1 20 "reset" "request" 1
           "terminate" "reset" [] (mkState 0%nat [])).2
    = [(tt, UpdateCurrentVersion 1 false)] ++ more
    ∧ Exists isDecisionTaskFailed more.
Proof.
  pose proof (prepareResetWorkflow_decision_gate
                (collab := collaborators) (consts := constants)
                1 "domain" "workflow" "base" [] 10 1 20 "reset" "request" 1
                "terminate" "reset" []
                (mkState 0%nat []) (mkState 0%nat []) (mkState 0%nat [])
                (mkState 1%nat [(tt, UpdateCurrentVersion 1 false)])
                ["t"%byte] tt 100 eq_refl eq_refl) as Hgate.
  destruct (prepareResetWorkflow _ _ _ _ _ _ _ _ _ _ _ _ _ _ _) as [r s'].
  destruct Hgate as (more & Hlog & Hiff & _); [simpl; lia|reflexivity|].
  exists more. split; [exact Hlog|]. apply Hiff.
  exists (DecisionInfo.mk 9 10). split; reflexivity.
Defined.
End queue_and_resetter_samples.
